(** * UPC merge tool: barcode reconciliation and attribute extraction

    A shallow embedding of the pipeline of the Streamlit scripts
    [upc_merge_tool_*.py]: barcode normalisation, the New/Existing
    reconciliation against the partner catalogue, the size/count parser
    [extract_size_components], the [product_type] splitter and the
    projection of the new rows onto the partner file's columns.

    Text is [string]; a character is read as the code point of the same
    number (U+0000 to U+00FF).  On that range the definitions below follow
    Python's [str.lower], [str.strip], [str.zfill] and the [re] classes
    [\d] and [\s].

    A data frame is a list of column names and a list of rows, a row being
    a finite map from column names to cells; column names are distinct, as
    [read_excel] makes them.  The [.str] methods are modelled as on a
    column of dtype [object]: an element that is not a string gives a
    missing value. *)

From Stdlib Require Import Ascii DecimalString ZArith.
From stdpp Require Import gmap strings list fin_maps.

(** ** Characters and text *)

Module Text.

Definition code (c : ascii) : nat := nat_of_ascii c.

(** [\d] of [re] (and [str.isdigit]) on U+0000..U+00FF: the ten digits. *)
Definition isdigit (c : ascii) : bool :=
  (48 <=? code c)%nat && (code c <=? 57)%nat.

(** [\s] of [re] and the characters removed by [str.strip()]:
    TAB LF VT FF CR, FS GS RS US, SPACE, NEL and NBSP. *)
Definition isspace (c : ascii) : bool :=
  ((9 <=? code c)%nat && (code c <=? 13)%nat)
  || ((28 <=? code c)%nat && (code c <=? 32)%nat)
  || (code c =? 133)%nat || (code c =? 160)%nat.

(** [str.lower] on one character: A-Z, and the Latin-1 capitals
    U+00C0..U+00DE without the multiplication sign U+00D7. *)
Definition lower_char (c : ascii) : ascii :=
  let n := code c in
  if ((65 <=? n)%nat && (n <=? 90)%nat)
     || ((192 <=? n)%nat && (n <=? 222)%nat && negb (n =? 215)%nat)
  then ascii_of_nat (n + 32) else c.

(** [str.upper] on one character: a-z, and the Latin-1 small letters
    U+00E0..U+00FE without the division sign U+00F7.  (The three
    characters whose capital lies outside U+0000..U+00FF, U+00B5, U+00DF
    and U+00FF, are left as they are.) *)
Definition upper_char (c : ascii) : ascii :=
  let n := code c in
  if ((97 <=? n)%nat && (n <=? 122)%nat)
     || ((224 <=? n)%nat && (n <=? 254)%nat && negb (n =? 247)%nat)
  then ascii_of_nat (n - 32) else c.

Fixpoint map (f : ascii -> ascii) (s : string) : string :=
  match s with
  | EmptyString => EmptyString
  | String c s' => String (f c) (map f s')
  end.

Definition lower : string -> string := map lower_char.
Definition upper : string -> string := map upper_char.

Fixpoint all (p : ascii -> bool) (s : string) : bool :=
  match s with
  | EmptyString => true
  | String c s' => p c && all p s'
  end.

Fixpoint any (p : ascii -> bool) (s : string) : bool :=
  match s with
  | EmptyString => false
  | String c s' => p c || any p s'
  end.

Fixpoint repeat (c : ascii) (n : nat) : string :=
  match n with
  | O => EmptyString
  | S n' => String c (repeat c n')
  end.

Fixpoint take (n : nat) (s : string) : string :=
  match n, s with
  | S n', String c s' => String c (take n' s')
  | _, _ => EmptyString
  end.

Fixpoint drop (n : nat) (s : string) : string :=
  match n, s with
  | S n', String _ s' => drop n' s'
  | _, _ => s
  end.

Fixpoint take_while (p : ascii -> bool) (s : string) : string :=
  match s with
  | String c s' => if p c then String c (take_while p s') else EmptyString
  | EmptyString => EmptyString
  end.

Fixpoint drop_while (p : ascii -> bool) (s : string) : string :=
  match s with
  | String c s' => if p c then drop_while p s' else s
  | EmptyString => EmptyString
  end.

Fixpoint rev_onto (s acc : string) : string :=
  match s with
  | EmptyString => acc
  | String c s' => rev_onto s' (String c acc)
  end.

Definition rev (s : string) : string := rev_onto s EmptyString.

(** [l] is a prefix of [s]: the rest of [s] after [l], if so. *)
Fixpoint strip_prefix (l s : string) : option string :=
  match l, s with
  | EmptyString, _ => Some s
  | String a l', String b s' =>
      if Ascii.eqb a b then strip_prefix l' s' else None
  | String _ _, EmptyString => None
  end.

(** [s.zfill(width)]: zeros on the left up to [width] characters, after a
    leading sign if there is one; nothing is ever cut. *)
Definition zfill (width : nat) (s : string) : string :=
  let pad := repeat "0"%char (width - String.length s) in
  match s with
  | String c s' =>
      if Ascii.eqb c "+"%char || Ascii.eqb c "-"%char
      then String c (pad +:+ s') else pad +:+ s
  | EmptyString => pad
  end.

(** [s.strip()]. *)
Definition strip (s : string) : string :=
  rev (drop_while isspace (rev (drop_while isspace s))).

(** [s.split(sep)] for a one-character separator: never the empty list. *)
Fixpoint split (sep : ascii) (s : string) : list string :=
  match s with
  | EmptyString => [EmptyString]
  | String c s' =>
      if Ascii.eqb c sep then EmptyString :: split sep s'
      else match split sep s' with
           | p :: ps => String c p :: ps
           | [] => [String c EmptyString]
           end
  end.

End Text.

(** ** Regular expressions: the fragment of [re] the scripts use

    A backtracking matcher in continuation-passing style, with the
    priorities of [re]: [p+] and [r?] are greedy, [r1|r2] tries [r1]
    first, and [re.search] takes the leftmost start. *)

Module Re.

Inductive cls := Digit | Space.

Definition cls_mem (p : cls) (c : ascii) : bool :=
  match p with
  | Digit => Text.isdigit c
  | Space => Text.isspace c
  end.

Inductive regex :=
| Str (l : string)          (* literal text *)
| Cls (p : cls)             (* \d, \s *)
| Plus (p : cls)            (* \d+ *)
| Opt (r : regex)           (* r? *)
| Seq (r1 r2 : regex)       (* r1 r2 *)
| Alt (r1 r2 : regex)       (* r1|r2 *)
| Grp (n : nat) (r : regex) (* ( r ), the n-th group *)
| Eos.                      (* $ *)

(** Group number and captured text, the latest capture first. *)
Definition caps := list (nat * string).

Fixpoint group (cs : caps) (n : nat) : option string :=
  match cs with
  | [] => None
  | (m, w) :: cs' => if (m =? n)%nat then Some w else group cs' n
  end.

(** The text between the input position [s] and the later position [s']
    (both given as the rest of the input). *)
Definition taken (s s' : string) : string :=
  Text.take (String.length s - String.length s') s.

(** [$]: at the end, or just before a newline that ends the text. *)
Definition at_end (s : string) : bool :=
  match s with
  | EmptyString => true
  | String c EmptyString => Ascii.eqb c "010"%char
  | _ => false
  end.

Section Matcher.
Context {R : Type}.

Fixpoint plus_loop (p : cls) (s : string) (k : string -> option R)
  : option R :=
  match s with
  | String c s' =>
      if cls_mem p c then
        match plus_loop p s' k with
        | Some x => Some x
        | None => k s'
        end
      else None
  | EmptyString => None
  end.

Fixpoint mtch (r : regex) (s : string) (cs : caps)
    (k : string -> caps -> option R) : option R :=
  match r with
  | Str l =>
      match Text.strip_prefix l s with
      | Some s' => k s' cs
      | None => None
      end
  | Cls p =>
      match s with
      | String c s' => if cls_mem p c then k s' cs else None
      | EmptyString => None
      end
  | Plus p => plus_loop p s (fun s' => k s' cs)
  | Opt r1 =>
      match mtch r1 s cs k with
      | Some x => Some x
      | None => k s cs
      end
  | Seq r1 r2 => mtch r1 s cs (fun s1 cs1 => mtch r2 s1 cs1 k)
  | Alt r1 r2 =>
      match mtch r1 s cs k with
      | Some x => Some x
      | None => mtch r2 s cs k
      end
  | Grp n r1 =>
      mtch r1 s cs (fun s' cs' => k s' ((n, taken s s') :: cs'))
  | Eos => if at_end s then k s cs else None
  end.
End Matcher.

(** A match: where it starts, the matched text, the groups, and the rest
    of the input after it. *)
Record match_obj := {
  m_start : nat;
  m_text : string;
  m_groups : caps;
  m_rest : string
}.

(** [re.match] at the position whose rest is [s]. *)
Definition match_at (r : regex) (i : nat) (s : string) : option match_obj :=
  mtch r s [] (fun s' cs =>
    Some {| m_start := i; m_text := taken s s'; m_groups := cs;
            m_rest := s' |}).

Fixpoint search_from (r : regex) (i : nat) (s : string) : option match_obj :=
  match match_at r i s with
  | Some m => Some m
  | None =>
      match s with
      | String _ s' => search_from r (S i) s'
      | EmptyString => None
      end
  end.

(** [re.search(r, s)]. *)
Definition search (r : regex) (s : string) : option match_obj :=
  search_from r 0 s.

(** [re.sub(r, repl, s)] for a literal replacement.  [skip] counts the
    characters of the current match still to be passed over. *)
Fixpoint sub_from (r : regex) (repl : string) (skip : nat) (s : string)
  : string :=
  match skip with
  | S n =>
      match s with
      | String _ s' => sub_from r repl n s'
      | EmptyString => EmptyString
      end
  | O =>
      match match_at r 0 s, s with
      | Some m, String c s' =>
          match String.length (m_text m) with
          | O => repl +:+ String c (sub_from r repl 0 s')
          | S n => repl +:+ sub_from r repl n s'
          end
      | Some m, EmptyString => repl
      | None, String c s' => String c (sub_from r repl 0 s')
      | None, EmptyString => EmptyString
      end
  end.

Definition sub (r : regex) (repl s : string) : string := sub_from r repl 0 s.

End Re.

(** ** Cells, rows and data frames *)

(** A spreadsheet cell as pandas holds it: missing ([NaN]/[None]), a
    string, an integer, or a float, the latter carried by the text that
    [str()] prints for it (such as [12345678905.0]). *)
Inductive cell :=
| CNull
| CStr (s : string)
| CInt (z : Z)
| CFloat (repr : string).

Global Instance cell_eq_dec : EqDecision cell.
Proof. solve_decision. Defined.

(** The element-wise [str()] behind [Series.astype(str)]. *)
Definition astype_str (c : cell) : string :=
  match c with
  | CNull => "nan"
  | CStr s => s
  | CInt z => NilZero.string_of_int (Z.to_int z)
  | CFloat r => r
  end.

(** A row maps column names to cells; a column without an entry reads as
    missing. *)
Definition get (r : gmap string cell) (col : string) : cell :=
  default CNull (r !! col).

Record DataFrame := {
  columns : list string;
  rows : list (gmap string cell)
}.

Inductive exn :=
| KeyError (key : string)
| AttributeError.

Inductive result (A : Type) :=
| Ok (a : A)
| Raise (e : exn).
Arguments Ok {A} a.
Arguments Raise {A} e.

Global Instance result_ret : MRet result := fun _ a => Ok a.
Global Instance result_bind : MBind result := fun _ _ f m =>
  match m with
  | Ok a => f a
  | Raise e => Raise e
  end.

(** [df[col]]. *)
Definition column (df : DataFrame) (col : string) : result (list cell) :=
  if decide (col ∈ columns df)
  then Ok ((fun r => get r col) <$> rows df)
  else Raise (KeyError col).

(** [df[col] = values], one value per row. *)
Definition set_column (df : DataFrame) (col : string) (values : list cell)
  : DataFrame :=
  {| columns := if decide (col ∈ columns df) then columns df
                else columns df ++ [col];
     rows := zip_with (fun r v => <[col := v]> r) (rows df) values |}.

(** [df[col] = value] for one scalar. *)
Definition set_scalar (df : DataFrame) (col : string) (value : cell)
  : DataFrame :=
  set_column df col (replicate (length (rows df)) value).

(** One row of [df[cols]]: the cells of the listed columns. *)
Definition project_row (cols : list string) (r : gmap string cell)
  : gmap string cell :=
  list_to_map ((fun c => (c, get r c)) <$> cols).

(** [df[cols]]: the listed columns, in the listed order.  A listed column
    the frame does not have stops the selection with a [KeyError] (pandas
    names all the columns that are not found; the first one is kept
    here). *)
Definition project (df : DataFrame) (cols : list string)
  : result DataFrame :=
  match filter (fun c => c ∉ columns df) cols with
  | [] => Ok {| columns := cols; rows := project_row cols <$> rows df |}
  | c :: _ => Raise (KeyError c)
  end.

(** [pd.concat([a, b], ignore_index=True)]: the rows of [a], then the rows
    of [b]; the columns of [a], then those of [b] that [a] lacks. *)
Definition concat (a b : DataFrame) : DataFrame :=
  {| columns := columns a ++ filter (fun c => c ∉ columns a) (columns b);
     rows := rows a ++ rows b |}.

(** [pd.concat(all_sheets.values(), ignore_index=True)]. *)
Definition concat_sheets (sheets : list DataFrame) : DataFrame :=
  foldl concat {| columns := []; rows := [] |} sheets.

(** ** Barcode normalisation *)

(** [r'\.0$'] *)
Definition dot0_end : Re.regex := Re.Seq (Re.Str ".0") Re.Eos.

(** [r'(\d+)'] *)
Definition digit_run : Re.regex := Re.Grp 1 (Re.Plus Re.Digit).

(** [Series.str.extract(r, expand=False)] on one element, for a pattern
    with one group: the group, or missing when nothing matches. *)
Definition str_extract (r : Re.regex) (s : string) : option string :=
  m ← Re.search r s; Re.group (Re.m_groups m) 1.

(** [.fillna(d)] on one element. *)
Definition fillna (d : string) (o : option string) : string := default d o.

(** The chain applied to the source barcode column:
    [.astype(str).str.replace(r'\.0$', '', regex=True)
     .str.extract(r'(\d+)', expand=False).fillna('').str.zfill(12)]. *)
Definition normalize_upc (c : cell) : string :=
  Text.zfill 12
    (fillna EmptyString
       (str_extract digit_run
          (Re.sub dot0_end EmptyString (astype_str c)))).

(** The chain applied to the partner file's [barcode] column:
    [.astype(str).str.extract(r'(\d+)', expand=False).fillna('')
     .str.zfill(12)]. *)
Definition normalize_partner (c : cell) : string :=
  Text.zfill 12 (fillna EmptyString (str_extract digit_run (astype_str c))).

(** The auto-mapping script's chain, on either column:
    [.astype(str).str.zfill(12)]. *)
Definition normalize_auto (c : cell) : string :=
  Text.zfill 12 (astype_str c).

(** ** Reconciliation *)

Inductive status := Existing | New.

Global Instance status_eq_dec : EqDecision status.
Proof. solve_decision. Defined.

Definition status_str (st : status) : string :=
  match st with Existing => "Existing" | New => "New" end.

(** [set(partner_df['barcode'])] *)
Definition existing_barcodes (barcodes : list string) : gset string :=
  list_to_set barcodes.

(** [lambda x: 'Existing' if x in existing_barcodes else 'New'] *)
Definition label (existing : gset string) (x : string) : status :=
  if decide (x ∈ existing) then Existing else New.

(** ** Size and count parsing *)

(** [(\d+(\.\d+)?)], groups 1 and 2 *)
Definition number_group : Re.regex :=
  Re.Grp 1 (Re.Seq (Re.Plus Re.Digit)
              (Re.Opt (Re.Grp 2 (Re.Seq (Re.Str ".") (Re.Plus Re.Digit))))).

(** [\s?] *)
Definition opt_space : Re.regex := Re.Opt (Re.Cls Re.Space).

(** [(oz|fl oz|l|ml|gallon|gal)], group 3 *)
Definition unit_group : Re.regex :=
  Re.Grp 3
    (Re.Alt (Re.Str "oz")
    (Re.Alt (Re.Str "fl oz")
    (Re.Alt (Re.Str "l")
    (Re.Alt (Re.Str "ml")
    (Re.Alt (Re.Str "gallon") (Re.Str "gal")))))).

(** [r'(\d+(\.\d+)?)\s?(oz|fl oz|l|ml|gallon|gal)'] *)
Definition size_re : Re.regex :=
  Re.Seq number_group (Re.Seq opt_space unit_group).

(** [r'(\d+)\s?ct'] *)
Definition count_re : Re.regex :=
  Re.Seq (Re.Grp 1 (Re.Plus Re.Digit)) (Re.Seq opt_space (Re.Str "ct")).

Record size_components := {
  sizeValue : option string;
  sizeMeasure : option string;
  itemCountValue : option string;
  itemCountMeasure : option string
}.

(** The [if size_measure:] block. *)
Definition canon_measure (size_measure : string) : string :=
  if bool_decide (size_measure ∈ ["FL OZ"; "OZ"]) then "OZ"
  else if bool_decide (size_measure ∈ ["GAL"; "GALLON"]) then "GALLON"
  else if bool_decide (size_measure = "L") then "L"
  else if bool_decide (size_measure = "ML") then "ML"
  else size_measure.

Definition extract_size_components (desc : string) : size_components :=
  let desc := Text.lower desc in
  let size_match := Re.search size_re desc in
  let count_match := Re.search count_re desc in
  let size_value := m ← size_match; Re.group (Re.m_groups m) 1 in
  let size_measure :=
    m ← size_match; Text.upper <$> Re.group (Re.m_groups m) 3 in
  let count_value := m ← count_match; Re.group (Re.m_groups m) 1 in
  let count_measure := match count_match with
                       | Some _ => Some "CT"
                       | None => None
                       end in
  let size_measure :=
    match size_measure with
    | Some m => if bool_decide (m = EmptyString) then Some m
                else Some (canon_measure m)
    | None => None
    end in
  {| sizeValue := size_value;
     sizeMeasure := size_measure;
     itemCountValue := count_value;
     itemCountMeasure := count_measure |}.

(** ** Category levels from [product_type] *)

(** One element of [.fillna('').str.split('>', expand=True)]: the parts of
    a text cell (a missing cell was filled with the empty text first), and
    a row of missing values for a cell that holds a number. *)
Definition str_split_cell (c : cell) : option (list string) :=
  match c with
  | CNull => Some (Text.split ">"%char EmptyString)
  | CStr s => Some (Text.split ">"%char s)
  | CInt _ | CFloat _ => None
  end.

(** The number of columns of the expanded frame [cat_split]. *)
Definition cat_width (cat_split : list (option (list string))) : nat :=
  foldr Nat.max 0 ((fun o => from_option length 0 o) <$> cat_split).

(** [cat_split[k].str.strip().fillna("N/A") if k in cat_split else "N/A"] *)
Definition cat_level (cat_split : list (option (list string))) (k : nat)
  : list string :=
  if decide (k < cat_width cat_split)
  then (fun parts => fillna "N/A" (Text.strip <$> (parts ≫= (.!! k))))
         <$> cat_split
  else replicate (length cat_split) "N/A".

(** ** The merge of the header-detecting script *)

(** The columns the script settled on, automatically or by the user's
    choice. *)
Record roles := {
  upc_col : string;
  desc_col : string;
  brand_col : option string;
  product_type_col : option string
}.

Definition opt_cell (o : option string) : cell :=
  match o with
  | Some s => CStr s
  | None => CNull
  end.

(** [upc_df[upc_col] = upc_df[upc_col].astype(str)...zfill(12)] *)
Definition clean_upcs (ro : roles) (upc_df : DataFrame)
  : result (DataFrame * list string) :=
  raw ← column upc_df (upc_col ro);
  let codes := normalize_upc <$> raw in
  Ok (set_column upc_df (upc_col ro) (CStr <$> codes), codes).

(** [partner_df['barcode'] = partner_df['barcode'].astype(str)...zfill(12)] *)
Definition clean_partner (partner_df : DataFrame)
  : result (DataFrame * list string) :=
  raw ← column partner_df "barcode";
  let codes := normalize_partner <$> raw in
  Ok (set_column partner_df "barcode" (CStr <$> codes), codes).

(** [upc_df['STATUS'] = upc_df[upc_col].apply(...)] and
    [new_upcs_df = upc_df[upc_df['STATUS'] == 'New'].copy()] *)
Definition select_new (upc_df : DataFrame) (codes : list string)
    (existing : gset string) : DataFrame :=
  let upc_df :=
    set_column upc_df "STATUS"
      ((fun x => CStr (status_str (label existing x))) <$> codes) in
  {| columns := columns upc_df;
     rows := filter (fun r => get r "STATUS" = CStr "New") (rows upc_df) |}.

(** The argument [extract_size_components] receives after [.fillna('')];
    [desc.lower()] needs a string. *)
Definition desc_text (c : cell) : result string :=
  match c with
  | CNull => Ok EmptyString
  | CStr s => Ok s
  | CInt _ | CFloat _ => Raise AttributeError
  end.

(** [parsed_fields = new_upcs_df[desc_col].fillna('')
                       .apply(extract_size_components)] and
    [new_upcs_df = pd.concat([new_upcs_df, parsed_fields], axis=1)].
    On an empty selection [apply] never calls the function and returns an
    empty series, not a frame with the four columns: the later
    [new_upcs_df['itemCountValue']] then stops the run with a [KeyError]. *)
Definition add_parsed (ro : roles) (new_upcs_df : DataFrame)
  : result DataFrame :=
  descs ← column new_upcs_df (desc_col ro);
  texts ← mapM desc_text descs;
  let parsed_fields := extract_size_components <$> texts in
  if decide (rows new_upcs_df = []) then Raise (KeyError "itemCountValue")
  else
    let df := new_upcs_df in
    let df := set_column df "sizeValue"
                (opt_cell ∘ sizeValue <$> parsed_fields) in
    let df := set_column df "sizeMeasure"
                (opt_cell ∘ sizeMeasure <$> parsed_fields) in
    let df := set_column df "itemCountValue"
                (opt_cell ∘ itemCountValue <$> parsed_fields) in
    let df := set_column df "itemCountMeasure"
                (opt_cell ∘ itemCountMeasure <$> parsed_fields) in
    Ok df.

(** The [if product_type_col: ... else: ...] block. *)
Definition add_categories (ro : roles) (new_upcs_df : DataFrame)
  : result DataFrame :=
  match product_type_col ro with
  | Some pt =>
      cells ← column new_upcs_df pt;
      let cat_split := str_split_cell <$> cells in
      let df := new_upcs_df in
      let df := set_column df "ch1Department"
                  (CStr <$> cat_level cat_split 0) in
      let df := set_column df "ch2Category"
                  (CStr <$> cat_level cat_split 1) in
      let df := set_column df "ch3Segment"
                  (CStr <$> cat_level cat_split 2) in
      Ok df
  | None =>
      let df := new_upcs_df in
      let df := set_scalar df "ch1Department" (CStr "N/A") in
      let df := set_scalar df "ch2Category" (CStr "N/A") in
      let df := set_scalar df "ch3Segment" (CStr "N/A") in
      Ok df
  end.

(** [.str.upper()] on one element: missing for what is not a string. *)
Definition str_upper (c : cell) : cell :=
  match c with
  | CStr s => CStr (Text.upper s)
  | _ => CNull
  end.

(** [pd.DataFrame({...})] from named columns, for [n] rows. *)
Definition frame_of (n : nat) (dict : list (string * list cell))
  : DataFrame :=
  foldl (fun df kv => set_column df kv.1 kv.2)
        {| columns := []; rows := replicate n ∅ |} dict.

(** The field names of the rows built for the new barcodes. *)
Definition new_row_fields : list string :=
  ["barcode"; "bh2Brand"; "name"; "description"; "ch1Department";
   "ch2Category"; "ch3Segment"; "itemCountValue"; "itemCountMeasure";
   "sizeValue"; "sizeMeasure"; "partnerProduct"; "awardPoints"].

(** [new_upcs_df[brand_col].str.upper() if brand_col else "N/A"] *)
Definition brand_values (ro : roles) (new_upcs_df : DataFrame)
  : result (list cell) :=
  match brand_col ro with
  | Some b =>
      cells ← column new_upcs_df b;
      Ok (str_upper <$> (cells : list cell))
  | None => Ok (replicate (length (rows new_upcs_df)) (CStr "N/A"))
  end.

(** [new_rows = pd.DataFrame({'barcode': ..., ..., 'awardPoints': 'N'})] *)
Definition build_new_rows (ro : roles) (new_upcs_df : DataFrame)
  : result DataFrame :=
  let n := length (rows new_upcs_df) in
  barcode ← column new_upcs_df (upc_col ro);
  bh2Brand ← brand_values ro new_upcs_df;
  name ← column new_upcs_df (desc_col ro);
  ch1Department ← column new_upcs_df "ch1Department";
  ch2Category ← column new_upcs_df "ch2Category";
  ch3Segment ← column new_upcs_df "ch3Segment";
  itemCountValue ← column new_upcs_df "itemCountValue";
  itemCountMeasure ← column new_upcs_df "itemCountMeasure";
  sizeValue ← column new_upcs_df "sizeValue";
  sizeMeasure ← column new_upcs_df "sizeMeasure";
  Ok (frame_of n
        [("barcode", barcode); ("bh2Brand", bh2Brand); ("name", name);
         ("description", name); ("ch1Department", ch1Department);
         ("ch2Category", ch2Category); ("ch3Segment", ch3Segment);
         ("itemCountValue", itemCountValue);
         ("itemCountMeasure", itemCountMeasure);
         ("sizeValue", sizeValue); ("sizeMeasure", sizeMeasure);
         ("partnerProduct", replicate n (CStr "Y"));
         ("awardPoints", replicate n (CStr "N"))]).

(** [for col in cols: if col not in new_rows.columns: new_rows[col] = None] *)
Definition add_missing (new_rows : DataFrame) (cols : list string)
  : DataFrame :=
  foldl (fun df col => if decide (col ∈ columns df) then df
                       else set_scalar df col CNull)
        new_rows cols.

(** The loop over [partner_df.columns] and
    [new_rows = new_rows[partner_df.columns]]. *)
Definition align (partner_df new_rows : DataFrame) : result DataFrame :=
  project (add_missing new_rows (columns partner_df)) (columns partner_df).

(** The first half of the [Merge & Extract] button: both barcode columns
    are normalised in place, the source rows are labelled, and the rows
    labelled [New] are selected.  Returns the partner frame as it now is
    and [new_upcs_df]. *)
Definition reconcile (ro : roles) (upc_df partner_df : DataFrame)
  : result (DataFrame * DataFrame) :=
  '(upc_df, codes) ← clean_upcs ro upc_df;
  '(partner_df, pcodes) ← clean_partner partner_df;
  let existing := existing_barcodes pcodes in
  Ok (partner_df, select_new upc_df codes existing).

(** From [new_upcs_df] to [new_rows]: parsed fields, category levels and
    the frame in the partner file's field names. *)
Definition new_rows_of (ro : roles) (new_upcs_df : DataFrame)
  : result DataFrame :=
  new_upcs_df ← add_parsed ro new_upcs_df;
  new_upcs_df ← add_categories ro new_upcs_df;
  build_new_rows ro new_upcs_df.

(** The body of the [Merge & Extract] button, up to
    [merged_df = pd.concat([partner_df, new_rows], ignore_index=True)]. *)
Definition merge (ro : roles) (upc_df partner_df : DataFrame)
  : result DataFrame :=
  '(partner_df, new_upcs_df) ← reconcile ro upc_df partner_df;
  new_rows ← new_rows_of ro new_upcs_df;
  new_rows ← align partner_df new_rows;
  Ok (concat partner_df new_rows).

(** ** The header row and the column roles *)














(** ** The merge of the auto-mapping script *)







(** ** What the properties are stated with *)

(** The first maximal run of decimal digits of a text (empty if the text
    has no digit). *)
Definition first_digit_run (s : string) : string :=
  Text.take_while Text.isdigit
    (Text.drop_while (fun c => negb (Text.isdigit c)) s).

(** The text without its last two characters when these are [".0"]. *)
Fixpoint strip_trailing_dot0 (s : string) : string :=
  match s with
  | EmptyString => EmptyString
  | String c s' =>
      if bool_decide (s = ".0") then EmptyString
      else String c (strip_trailing_dot0 s')
  end.

(** The normalised barcode of a source row. *)
Definition upc_code (ro : roles) (r : gmap string cell) : string :=
  normalize_upc (get r (upc_col ro)).

(** The normalised barcodes of the catalogue, row by row. *)
Definition catalog_codes (partner_df : DataFrame) : list string :=
  (fun r => normalize_partner (get r "barcode")) <$> rows partner_df.

(** The label the script gives a source row. *)
Definition row_status (ro : roles) (partner_df : DataFrame)
    (r : gmap string cell) : status :=
  label (existing_barcodes (catalog_codes partner_df)) (upc_code ro r).

(** A source row as it stands in [upc_df] after the labelling: barcode
    normalised, [STATUS] added. *)
Definition labelled (ro : roles) (partner_df : DataFrame)
    (r : gmap string cell) : gmap string cell :=
  <["STATUS" := CStr (status_str (row_status ro partner_df r))]>
    (<[upc_col ro := CStr (upc_code ro r)]> r).

(** A catalogue row as it stands in [partner_df] after the barcode column
    was normalised in place. *)
Definition cleaned (r : gmap string cell) : gmap string cell :=
  <["barcode" := CStr (normalize_partner (get r "barcode"))]> r.

(** The columns the script adds to [upc_df] and [new_upcs_df]. *)
Definition derived_columns : list string :=
  ["STATUS"; "sizeValue"; "sizeMeasure"; "itemCountValue";
   "itemCountMeasure"; "ch1Department"; "ch2Category"; "ch3Segment"].

(** [df'] has as many rows as [df] and the same cells outside the columns
    [cols]. *)
Definition same_but (cols : list string) (df df' : DataFrame) : Prop :=
  length (rows df') = length (rows df) ∧
  ∀ c, c ∉ cols ->
       (fun r => get r c) <$> rows df' = (fun r => get r c) <$> rows df.

(** No row of [df] has a cell outside the columns of [df]. *)
Definition closed (df : DataFrame) : Prop :=
  ∀ r c, r ∈ rows df -> c ∉ columns df -> r !! c = None.

(** Example frames: a source list of three products, the first of which
    is in the catalogue, and a catalogue of two products. *)
Definition ex_roles : roles :=
  {| upc_col := "gtin"; desc_col := "title"; brand_col := Some "brand";
     product_type_col := Some "product_type" |}.

Definition ex_upc : DataFrame :=
  {| columns := ["gtin"; "title"; "brand"; "product_type"];
     rows :=
       [list_to_map [("gtin", CFloat "12345678905.0");
                     ("title", CStr "Cola 12 oz"); ("brand", CStr "acme")];
        list_to_map [("gtin", CStr "ABC");
                     ("title", CStr "Water Bottles 24 ct 16.9 oz");
                     ("brand", CStr "acme");
                     ("product_type", CStr "Beverages > Soda > Cola")];
        list_to_map [("gtin", CInt 77); ("title", CStr "Chips")]] |}.

Definition ex_partner : DataFrame :=
  {| columns := ["barcode"; "name"; "sizeValue"; "ch1Department";
                 "ch2Category"; "notes"];
     rows :=
       [list_to_map [("barcode", CStr "012345678905");
                     ("name", CStr "Cola")];
        list_to_map [("barcode", CInt 12345); ("name", CStr "Tea");
                     ("notes", CInt 5)]] |}.

Definition ex_reconciled : DataFrame * DataFrame :=
  match reconcile ex_roles ex_upc ex_partner with
  | Ok pn => pn
  | Raise _ => ({| columns := []; rows := [] |},
                {| columns := []; rows := [] |})
  end.

Definition ex_out : DataFrame :=
  match merge ex_roles ex_upc ex_partner with
  | Ok df => df
  | Raise _ => {| columns := []; rows := [] |}
  end.

(** What it means for a pattern to match between two input positions:
    [rmatch r s cs s' cs'] reads "from the position with rest [s] and
    groups [cs], [r] can match up to the position with rest [s'], leaving
    the groups [cs']".  It has no priorities: every way to match is
    derivable. *)
Inductive rmatch : Re.regex -> string -> Re.caps -> string -> Re.caps -> Prop :=
| rm_str l s s' cs :
    Text.strip_prefix l s = Some s' -> rmatch (Re.Str l) s cs s' cs
| rm_cls p c s cs :
    Re.cls_mem p c = true -> rmatch (Re.Cls p) (String c s) cs s cs
| rm_plus_one p c s cs :
    Re.cls_mem p c = true -> rmatch (Re.Plus p) (String c s) cs s cs
| rm_plus_more p c s s' cs :
    Re.cls_mem p c = true -> rmatch (Re.Plus p) s cs s' cs ->
    rmatch (Re.Plus p) (String c s) cs s' cs
| rm_opt_some r s cs s' cs' :
    rmatch r s cs s' cs' -> rmatch (Re.Opt r) s cs s' cs'
| rm_opt_none r s cs : rmatch (Re.Opt r) s cs s cs
| rm_seq r1 r2 s cs s1 cs1 s2 cs2 :
    rmatch r1 s cs s1 cs1 -> rmatch r2 s1 cs1 s2 cs2 ->
    rmatch (Re.Seq r1 r2) s cs s2 cs2
| rm_alt_l r1 r2 s cs s' cs' :
    rmatch r1 s cs s' cs' -> rmatch (Re.Alt r1 r2) s cs s' cs'
| rm_alt_r r1 r2 s cs s' cs' :
    rmatch r2 s cs s' cs' -> rmatch (Re.Alt r1 r2) s cs s' cs'
| rm_grp n r s cs s' cs' :
    rmatch r s cs s' cs' ->
    rmatch (Re.Grp n r) s cs s' ((n, Re.taken s s') :: cs')
| rm_eos s cs : Re.at_end s = true -> rmatch Re.Eos s cs s cs.

(** One or more decimal digits. *)
Definition is_digits (w : string) : Prop :=
  w ≠ EmptyString ∧ Text.all Text.isdigit w = true.

(** A number, optionally decimal. *)
Definition is_number (v : string) : Prop :=
  is_digits v ∨ ∃ a b, is_digits a ∧ is_digits b ∧ v = a +:+ "." +:+ b.

(** Nothing, or one white-space character. *)
Definition is_opt_space (sp : string) : Prop :=
  sp = EmptyString ∨
  ∃ c, Text.isspace c = true ∧ sp = String c EmptyString.

Definition size_units : list string :=
  ["oz"; "fl oz"; "l"; "ml"; "gallon"; "gal"].

(** [t] is a number [v], an optional space and a size unit [u]. *)
Definition size_token (v u t : string) : Prop :=
  is_number v ∧ u ∈ size_units ∧
  ∃ sp, is_opt_space sp ∧ t = v +:+ sp +:+ u.

(** [t] is a whole number [v], an optional space and [ct]. *)
Definition count_token (v t : string) : Prop :=
  is_digits v ∧ ∃ sp, is_opt_space sp ∧ t = v +:+ sp +:+ "ct".

(** A text with property [P] stands at offset [n] of [s]. *)
Definition occurs_at (P : string -> Prop) (n : nat) (s : string) : Prop :=
  ∃ pre t post, s = pre +:+ t +:+ post ∧ String.length pre = n ∧ P t.

(** The canonical name of a size unit. *)
Definition canonical_unit (u : string) : string :=
  if bool_decide (u = "fl oz" ∨ u = "oz") then "OZ"
  else if bool_decide (u = "gal" ∨ u = "gallon") then "GALLON"
  else if bool_decide (u = "l") then "L"
  else if bool_decide (u = "ml") then "ML"
  else u.


(** The level [k] of one record, from its [product_type] cell. *)
Definition level_of (c : cell) (k : nat) : string :=
  fillna "N/A" (Text.strip <$> (str_split_cell c ≫= (.!! k))).

(** The cell of one level of a record: the level of its [product_type]
    cell, or ["N/A"] when the source has no such column. *)
Definition level_cell (ro : roles) (r : gmap string cell) (k : nat) : cell :=
  match product_type_col ro with
  | Some pt => CStr (level_of (get r pt) k)
  | None => CStr "N/A"
  end.

(** The fields of the row built for a [New] record, all but the brand
    (the one field that is put in upper case): [r] is the source row with
    its barcode normalised, [desc] the text of its description. *)
Definition built_fields (ro : roles) (r : gmap string cell) (desc : string)
  : list (string * cell) :=
  let parsed := extract_size_components desc in
  [("barcode", get r (upc_col ro));
   ("name", get r (desc_col ro));
   ("description", get r (desc_col ro));
   ("ch1Department", level_cell ro r 0);
   ("ch2Category", level_cell ro r 1);
   ("ch3Segment", level_cell ro r 2);
   ("itemCountValue", opt_cell (itemCountValue parsed));
   ("itemCountMeasure", opt_cell (itemCountMeasure parsed));
   ("sizeValue", opt_cell (sizeValue parsed));
   ("sizeMeasure", opt_cell (sizeMeasure parsed));
   ("partnerProduct", CStr "Y");
   ("awardPoints", CStr "N")].
















(** * Properties *)

(** ** Text *)

Section TextFacts.
Implicit Types (s t w : string) (c : ascii) (p : ascii -> bool).

Lemma sapp_nil_l s : EmptyString +:+ s = s.
Proof. reflexivity. Qed.

Lemma sapp_cons c s t : String c s +:+ t = String c (s +:+ t).
Proof. reflexivity. Qed.

Lemma sapp_nil_r s : s +:+ EmptyString = s.
Proof. induction s as [|c s IH]; [done|]. by rewrite sapp_cons, IH. Qed.

Lemma sapp_assoc s t w : (s +:+ t) +:+ w = s +:+ t +:+ w.
Proof. induction s as [|c s IH]; [done|]. by rewrite !sapp_cons, IH. Qed.

Lemma slength_app s t :
  String.length (s +:+ t) = String.length s + String.length t.
Proof. induction s as [|c s IH]; [done|]. rewrite sapp_cons. simpl. lia. Qed.

Lemma slength_repeat c n : String.length (Text.repeat c n) = n.
Proof. induction n; simpl; congruence. Qed.

Lemma sall_app p s t : Text.all p (s +:+ t) = Text.all p s && Text.all p t.
Proof.
  induction s as [|c s IH]; [done|].
  rewrite sapp_cons. simpl. rewrite IH. by destruct (p c).
Qed.

Lemma sall_repeat p c n : p c = true -> Text.all p (Text.repeat c n) = true.
Proof. intros Hc. induction n; simpl; [done|]. by rewrite Hc. Qed.

Lemma stake_app_length s t : Text.take (String.length s) (s +:+ t) = s.
Proof. induction s as [|c s IH]; [by destruct t|]. simpl. by rewrite IH. Qed.

Lemma sdrop_app_length s t : Text.drop (String.length s) (s +:+ t) = t.
Proof. induction s as [|c s IH]; [by destruct t|]. done. Qed.

Lemma stake_drop n s : Text.take n s +:+ Text.drop n s = s.
Proof.
  revert s. induction n as [|n IH]; intros [|c s]; simpl; try done.
  by rewrite sapp_cons, IH.
Qed.

Lemma slength_take n s :
  n <= String.length s -> String.length (Text.take n s) = n.
Proof.
  revert s. induction n as [|n IH]; intros [|c s]; simpl; try lia.
  intros. rewrite IH; lia.
Qed.

Lemma slength_drop n s : String.length (Text.drop n s) = String.length s - n.
Proof. revert s. induction n as [|n IH]; intros [|c s]; simpl; auto. Qed.

Lemma taken_app w s : Re.taken (w +:+ s) s = w.
Proof.
  unfold Re.taken. rewrite slength_app.
  replace (String.length w + String.length s - String.length s)
    with (String.length w) by lia.
  apply stake_app_length.
Qed.

Lemma strip_prefix_Some l s s' :
  Text.strip_prefix l s = Some s' <-> s = l +:+ s'.
Proof.
  revert s. induction l as [|a l IH]; intros s; simpl.
  - rewrite sapp_nil_l. split; congruence.
  - destruct s as [|b s]; [by rewrite sapp_cons|].
    rewrite sapp_cons. destruct (Ascii.eqb_spec a b) as [->|Hne].
    + rewrite IH. split; congruence.
    + split; [done|]. intros [= ? ?]. done.
Qed.

Lemma take_drop_while p s :
  Text.take_while p s +:+ Text.drop_while p s = s.
Proof.
  induction s as [|c s IH]; [done|]. simpl.
  destruct (p c); [|done]. by rewrite sapp_cons, IH.
Qed.

Lemma all_take_while p s : Text.all p (Text.take_while p s) = true.
Proof.
  induction s as [|c s IH]; [done|]. simpl.
  destruct (p c) eqn:Hc; simpl; [|done]. by rewrite Hc.
Qed.

End TextFacts.

(** ** The matcher against the match relation *)

Section MatcherFacts.
Implicit Types (r : Re.regex) (s : string) (cs : Re.caps).

(** A match ends at a later position of the same input. *)
Lemma rmatch_suffix r s cs s' cs' :
  rmatch r s cs s' cs' -> ∃ w, s = w +:+ s'.
Proof.
  induction 1 as
    [l s s' cs Hl | p c s cs _ | p c s cs _ | p c s s' cs _ _ [w ->]
    | r s cs s' cs' _ IH | r s cs
    | r1 r2 s cs s1 cs1 s2 cs2 _ [w1 ->] _ [w2 ->]
    | r1 r2 s cs s' cs' _ IH | r1 r2 s cs s' cs' _ IH
    | n r s cs s' cs' _ IH | s cs _].
  - exists l. by apply strip_prefix_Some.
  - by exists (String c EmptyString).
  - by exists (String c EmptyString).
  - by exists (String c w).
  - done.
  - by exists EmptyString.
  - exists (w1 +:+ w2). by rewrite sapp_assoc.
  - done.
  - done.
  - done.
  - by exists EmptyString.
Qed.

Lemma plus_loop_sound {R} p s cs (k : string -> option R) x :
  Re.plus_loop p s k = Some x ->
  ∃ s', rmatch (Re.Plus p) s cs s' cs ∧ k s' = Some x.
Proof.
  induction s as [|c s IH]; simpl; [done|].
  destruct (Re.cls_mem p c) eqn:Hc; [|done].
  destruct (Re.plus_loop p s k) as [y|] eqn:Hl.
  - intros [= ->]. destruct (IH eq_refl) as (s' & Hm & Hk).
    exists s'. split; [by apply rm_plus_more|done].
  - intros Hk. exists s. split; [by apply rm_plus_one|done].
Qed.

(** Whatever the matcher finds is a match. *)
Lemma mtch_sound {R} r s cs (k : string -> Re.caps -> option R) x :
  Re.mtch r s cs k = Some x ->
  ∃ s' cs', rmatch r s cs s' cs' ∧ k s' cs' = Some x.
Proof.
  revert s cs k.
  induction r as [l|p|p|r IH|r1 IH1 r2 IH2|r1 IH1 r2 IH2|n r IH|];
    intros s cs k; simpl.
  - destruct (Text.strip_prefix l s) as [s'|] eqn:Hl; [|done].
    intros Hk. exists s', cs. split; [by constructor|done].
  - destruct s as [|c s]; [done|].
    destruct (Re.cls_mem p c) eqn:Hc; [|done].
    intros Hk. exists s, cs. split; [by constructor|done].
  - intros Hl. apply (plus_loop_sound p s cs) in Hl as (s' & ? & ?).
    by exists s', cs.
  - destruct (Re.mtch r s cs k) as [y|] eqn:Hr.
    + intros [= ->]. apply IH in Hr as (s' & cs' & ? & ?).
      exists s', cs'. split; [by apply rm_opt_some|done].
    + intros Hk. exists s, cs. split; [apply rm_opt_none|done].
  - intros H1. apply IH1 in H1 as (s1 & cs1 & ? & H2).
    apply IH2 in H2 as (s2 & cs2 & ? & ?).
    exists s2, cs2. split; [by eapply rm_seq|done].
  - destruct (Re.mtch r1 s cs k) as [y|] eqn:Hr.
    + intros [= ->]. apply IH1 in Hr as (s' & cs' & ? & ?).
      exists s', cs'. split; [by apply rm_alt_l|done].
    + intros Hr2. apply IH2 in Hr2 as (s' & cs' & ? & ?).
      exists s', cs'. split; [by apply rm_alt_r|done].
  - intros Hr. apply IH in Hr as (s' & cs' & ? & ?).
    exists s', ((n, Re.taken s s') :: cs'). split; [by constructor|done].
  - destruct (Re.at_end s) eqn:He; [|done].
    intros Hk. exists s, cs. split; [by constructor|done].
Qed.

(** Backtracking loses no match: if some match lets the continuation
    succeed, the matcher succeeds. *)
Lemma mtch_complete {R} r s cs s' cs' :
  rmatch r s cs s' cs' ->
  ∀ k : string -> Re.caps -> option R,
    is_Some (k s' cs') -> is_Some (Re.mtch r s cs k).
Proof.
  induction 1 as
    [l s s' cs Hl | p c s cs Hc | p c s cs Hc | p c s s' cs Hc _ IH
    | r s cs s' cs' _ IH | r s cs
    | r1 r2 s cs s1 cs1 s2 cs2 _ IH1 _ IH2
    | r1 r2 s cs s' cs' _ IH | r1 r2 s cs s' cs' _ IH
    | n r s cs s' cs' _ IH | s cs He]; intros k Hk; simpl.
  - by rewrite Hl.
  - by rewrite Hc.
  - rewrite Hc. by destruct (Re.plus_loop p s _).
  - rewrite Hc. specialize (IH k Hk). simpl in IH.
    destruct (Re.plus_loop p s _); [done|by destruct IH].
  - specialize (IH k Hk). by destruct (Re.mtch r s cs k).
  - by destruct (Re.mtch r s cs k).
  - apply IH1, IH2, Hk.
  - specialize (IH k Hk). by destruct (Re.mtch r1 s cs k).
  - specialize (IH k Hk). by destruct (Re.mtch r1 s cs k).
  - by apply IH.
  - by rewrite He.
Qed.

Lemma match_at_sound r i s m :
  Re.match_at r i s = Some m ->
  Re.m_start m = i ∧ rmatch r s [] (Re.m_rest m) (Re.m_groups m).
Proof.
  unfold Re.match_at. intros Hm.
  apply mtch_sound in Hm as (s' & cs' & Hr & [= <-]). done.
Qed.

Lemma match_at_None r i s s' cs' :
  Re.match_at r i s = None -> ¬ rmatch r s [] s' cs'.
Proof.
  unfold Re.match_at. intros Hm Hr.
  eapply mtch_complete in Hr; [rewrite Hm in Hr; by destruct Hr|done].
Qed.

(** [re.search] returns a match at the leftmost position that has one. *)
Lemma search_from_Some r i s m :
  Re.search_from r i s = Some m ->
  ∃ n, n <= String.length s ∧ Re.m_start m = i + n ∧
       rmatch r (Text.drop n s) [] (Re.m_rest m) (Re.m_groups m) ∧
       ∀ j s' cs', j < n -> ¬ rmatch r (Text.drop j s) [] s' cs'.
Proof.
  revert i. induction s as [|c s IH]; intros i; simpl.
  - destruct (Re.match_at r i EmptyString) as [m'|] eqn:Hm; [|done].
    intros [= ->]. apply match_at_sound in Hm as [? ?].
    exists 0. repeat split; [lia|lia|done|lia].
  - destruct (Re.match_at r i (String c s)) as [m'|] eqn:Hm.
    + intros [= ->]. apply match_at_sound in Hm as [? ?].
      exists 0. repeat split; [lia|lia|done|lia].
    + intros Hs. apply IH in Hs as (n & Hn & Hst & Hr & Hmin).
      exists (S n). repeat split; [lia|lia|done|].
      intros [|j] s' cs' Hj; simpl.
      * by eapply match_at_None.
      * apply Hmin. lia.
Qed.

(** [re.search] returns [None] only when no position has a match. *)
Lemma search_from_None r i s :
  Re.search_from r i s = None ->
  ∀ j s' cs', ¬ rmatch r (Text.drop j s) [] s' cs'.
Proof.
  revert i. induction s as [|c s IH]; intros i; simpl.
  - destruct (Re.match_at r i EmptyString) eqn:Hm; [done|].
    intros _ j s' cs'.
    replace (Text.drop j EmptyString) with EmptyString by by destruct j.
    by eapply match_at_None.
  - destruct (Re.match_at r i (String c s)) eqn:Hm; [done|].
    intros Hs [|j] s' cs'; simpl.
    + by eapply match_at_None.
    + by eapply IH.
Qed.
End MatcherFacts.

(** ** Barcode normalisation *)

Section NormalizeFacts.
Implicit Types (s t : string) (c : ascii).

(** On a continuation that cannot fail, the greedy loop takes the whole
    run. *)
Lemma plus_loop_greedy {R} p c s (k : string -> option R) :
  (∀ s', is_Some (k s')) ->
  Re.cls_mem p c = true ->
  Re.plus_loop p (String c s) k = k (Text.drop_while (Re.cls_mem p) s).
Proof.
  intros Hk. revert c. induction s as [|c' s IH]; intros c Hc; simpl.
  - by rewrite Hc.
  - rewrite Hc. destruct (Re.cls_mem p c') eqn:Hc'; [|done].
    specialize (IH c' Hc'). simpl in IH. rewrite Hc' in IH. rewrite IH.
    by destruct (Hk (Text.drop_while (Re.cls_mem p) s)) as [x ->].
Qed.

Lemma taken_drop_while p s :
  Re.taken s (Text.drop_while p s) = Text.take_while p s.
Proof.
  rewrite <- (take_drop_while p s) at 1. apply taken_app.
Qed.

Lemma first_digit_run_cons c s :
  first_digit_run (String c s) =
  if Text.isdigit c then String c (Text.take_while Text.isdigit s)
  else first_digit_run s.
Proof.
  unfold first_digit_run. simpl. destruct (Text.isdigit c) eqn:Hc; simpl.
  - by rewrite Hc.
  - done.
Qed.

Lemma str_extract_digit_run_from i s :
  (m ← Re.search_from digit_run i s; Re.group (Re.m_groups m) 1) =
  if Text.any Text.isdigit s then Some (first_digit_run s) else None.
Proof.
  revert i. induction s as [|c s IH]; intros i; [done|].
  rewrite first_digit_run_cons.
  cbn [Re.search_from Text.any]. unfold Re.match_at, digit_run.
  cbn [Re.mtch]. destruct (Text.isdigit c) eqn:Hc.
  - rewrite plus_loop_greedy by (done || eauto). simpl.
    f_equal. change (Re.cls_mem Re.Digit) with Text.isdigit.
    unfold Re.taken. simpl.
    pose proof (take_drop_while Text.isdigit s) as Hs.
    pose proof (taken_drop_while Text.isdigit s) as Ht.
    unfold Re.taken in Ht.
    assert (String.length (Text.drop_while Text.isdigit s)
            <= String.length s) as Hle.
    { rewrite <- Hs at 2. rewrite slength_app. lia. }
    replace (S (String.length s)
             - String.length (Text.drop_while Text.isdigit s))
      with (S (String.length s
               - String.length (Text.drop_while Text.isdigit s))) by lia.
    simpl. by rewrite Ht.
  - simpl. rewrite Hc. apply IH.
Qed.

(** [.str.extract(r'(\d+)', expand=False).fillna('')] is the first
    maximal run of digits. *)
Lemma extract_digit_run s :
  fillna EmptyString (str_extract digit_run s) = first_digit_run s.
Proof.
  unfold str_extract, Re.search. rewrite str_extract_digit_run_from.
  destruct (Text.any Text.isdigit s) eqn:Hs; [done|]. simpl.
  induction s as [|c s IH]; [done|].
  simpl in Hs. rewrite first_digit_run_cons.
  destruct (Text.isdigit c); [done|]. by apply IH.
Qed.

Lemma first_digit_run_digits s :
  Text.all Text.isdigit (first_digit_run s) = true.
Proof. apply all_take_while. Qed.

Lemma first_digit_run_no_digit s :
  Text.any Text.isdigit s = false -> first_digit_run s = EmptyString.
Proof.
  induction s as [|c s IH]; [done|]. simpl.
  rewrite first_digit_run_cons. destruct (Text.isdigit c); [done|]. apply IH.
Qed.

(** [zfill] on digits: zeros in front, nothing cut. *)
Lemma zfill_digits n s :
  Text.all Text.isdigit s = true ->
  Text.zfill n s = Text.repeat "0" (n - String.length s) +:+ s.
Proof.
  unfold Text.zfill. destruct s as [|c s]; [by rewrite sapp_nil_r|].
  simpl. intros [Hc _]%andb_prop.
  destruct (Ascii.eqb_spec c "+") as [->|_]; [done|].
  destruct (Ascii.eqb_spec c "-") as [->|_]; [done|]. done.
Qed.

Lemma match_at_dot0 i s :
  Re.match_at dot0_end i s =
  match Text.strip_prefix ".0" s with
  | Some s' => if Re.at_end s'
               then Some {| Re.m_start := i; Re.m_text := Re.taken s s';
                            Re.m_groups := []; Re.m_rest := s' |}
               else None
  | None => None
  end.
Proof. reflexivity. Qed.

(** One step of [re.sub(r'\.0$', '', s)]: the match, if there is one, is
    dropped and what follows it (nothing, or the last newline) stays. *)
Lemma sub_dot0_cons c s :
  Re.sub_from dot0_end EmptyString 0 (String c s) =
  match Text.strip_prefix ".0" (String c s) with
  | Some s' => if Re.at_end s' then s'
               else String c (Re.sub_from dot0_end EmptyString 0 s)
  | None => String c (Re.sub_from dot0_end EmptyString 0 s)
  end.
Proof.
  cbn [Re.sub_from]. rewrite match_at_dot0.
  destruct (Text.strip_prefix ".0" (String c s)) as [s'|] eqn:Hp; [|done].
  apply strip_prefix_Some in Hp. rewrite !sapp_cons, sapp_nil_l in Hp.
  injection Hp as -> ->.
  destruct (Re.at_end s') eqn:He; [|done].
  change (Re.taken (String "." (String "0" s')) s')
    with (Re.taken (".0" +:+ s') s').
  rewrite taken_app. cbn [Re.m_text String.length Re.sub_from].
  rewrite sapp_nil_l.
  destruct s' as [|c' [|? ?]]; try done.
  simpl in He. apply Ascii.eqb_eq in He as ->. done.
Qed.

Lemma take_while_sub s :
  Text.take_while Text.isdigit (Re.sub_from dot0_end EmptyString 0 s) =
  Text.take_while Text.isdigit s.
Proof.
  induction s as [|c s IH]; [done|].
  rewrite sub_dot0_cons.
  destruct (Text.strip_prefix ".0" (String c s)) as [s'|] eqn:Hp.
  - apply strip_prefix_Some in Hp. rewrite !sapp_cons, sapp_nil_l in Hp.
    injection Hp as -> ->.
    destruct (Re.at_end s') eqn:He; [|done].
    destruct s' as [|c' [|? ?]]; try done.
    simpl in He. apply Ascii.eqb_eq in He as ->. done.
  - simpl. destruct (Text.isdigit c); [|done]. by rewrite IH.
Qed.

(** Removing [".0"] at the end changes the first digit run at most from
    ["0"] to nothing, which the padding hides. *)
Lemma zfill_run_sub s :
  Text.zfill 12 (first_digit_run (Re.sub dot0_end EmptyString s)) =
  Text.zfill 12 (first_digit_run s).
Proof.
  unfold Re.sub. induction s as [|c s IH]; [done|].
  rewrite sub_dot0_cons.
  destruct (Text.strip_prefix ".0" (String c s)) as [s'|] eqn:Hp.
  - apply strip_prefix_Some in Hp. rewrite !sapp_cons, sapp_nil_l in Hp.
    injection Hp as -> ->.
    destruct (Re.at_end s') eqn:He.
    + destruct s' as [|c' [|? ?]]; try done.
      simpl in He. apply Ascii.eqb_eq in He as ->. done.
    + rewrite !first_digit_run_cons. simpl.
      rewrite first_digit_run_cons in IH. simpl in IH. done.
  - rewrite !first_digit_run_cons. destruct (Text.isdigit c).
    + by rewrite take_while_sub.
    + apply IH.
Qed.

Lemma take_while_strip s :
  Text.take_while Text.isdigit (strip_trailing_dot0 s) =
  Text.take_while Text.isdigit s.
Proof.
  induction s as [|c s IH]; [done|]. simpl.
  case_bool_decide as Hs; [by injection Hs as -> ->|].
  simpl. destruct (Text.isdigit c); [|done]. by rewrite IH.
Qed.

Lemma zfill_run_strip s :
  Text.zfill 12 (first_digit_run (strip_trailing_dot0 s)) =
  Text.zfill 12 (first_digit_run s).
Proof.
  induction s as [|c s IH]; [done|]. simpl.
  case_bool_decide as Hs; [by injection Hs as -> ->|].
  rewrite !first_digit_run_cons. destruct (Text.isdigit c).
  - by rewrite take_while_strip.
  - apply IH.
Qed.

Lemma normalize_upc_run cl :
  normalize_upc cl = Text.zfill 12 (first_digit_run (astype_str cl)).
Proof.
  unfold normalize_upc. by rewrite extract_digit_run, zfill_run_sub.
Qed.

Lemma normalize_partner_run cl :
  normalize_partner cl = Text.zfill 12 (first_digit_run (astype_str cl)).
Proof. unfold normalize_partner. by rewrite extract_digit_run. Qed.

Lemma take_while_all p s :
  Text.all p s = true -> Text.take_while p s = s.
Proof.
  induction s as [|c s IH]; [done|]. simpl. intros [Hc Hs]%andb_prop.
  rewrite Hc. by rewrite IH.
Qed.

Lemma first_digit_run_all s :
  Text.all Text.isdigit s = true -> first_digit_run s = s.
Proof.
  destruct s as [|c s]; [done|]. simpl. intros [Hc Hs]%andb_prop.
  rewrite first_digit_run_cons, Hc. by rewrite take_while_all.
Qed.

End NormalizeFacts.

(** C2: for every raw barcode cell, the normalised source barcode has at
    least 12 characters, all of them decimal digits; it is the first
    maximal run of digits of the cell's text (after a trailing [".0"] is
    removed), with zeros in front up to 12 characters; a run of more than
    12 digits is kept whole, so the output is then longer than 12; and a
    text without any digit gives ["000000000000"].  The normaliser is a
    total function: no input makes it fail. *)
Theorem normalize_upc_spec (c : cell) :
  let out := normalize_upc c in
  let run := first_digit_run (strip_trailing_dot0 (astype_str c)) in
  12 <= String.length out ∧
  Text.all Text.isdigit out = true ∧
  out = Text.repeat "0" (12 - String.length run) +:+ run ∧
  String.length out = Nat.max 12 (String.length run) ∧
  (if Text.any Text.isdigit (astype_str c) then True
   else out = "000000000000").
Proof.
  intros out run.
  assert (out = Text.repeat "0" (12 - String.length run) +:+ run) as Hout.
  { unfold out, run. rewrite normalize_upc_run, <- zfill_run_strip.
    apply zfill_digits, first_digit_run_digits. }
  assert (String.length out = Nat.max 12 (String.length run)) as Hlen.
  { rewrite Hout, slength_app, slength_repeat. lia. }
  repeat split.
  - lia.
  - rewrite Hout, sall_app, sall_repeat by done.
    apply first_digit_run_digits.
  - done.
  - done.
  - destruct (Text.any Text.isdigit (astype_str c)) eqn:Hd; [done|].
    unfold out. rewrite normalize_upc_run, first_digit_run_no_digit; done.
Qed.

(** C7: the chain applied to the source barcodes and the chain applied to
    the partner file's barcodes give the same result on every cell; the
    source value [12345678905.0] becomes [012345678905] and is labelled
    [Existing] against a catalogue that holds [012345678905]. *)
Theorem normalize_upc_partner_agree (c : cell) :
  normalize_upc c = normalize_partner c ∧
  normalize_upc (CStr "12345678905.0") = "012345678905" ∧
  label (existing_barcodes [normalize_partner (CStr "012345678905")])
        (normalize_upc (CStr "12345678905.0")) = Existing.
Proof.
  split; [by rewrite normalize_upc_run, normalize_partner_run|].
  split; [by vm_compute|].
  unfold label, existing_barcodes.
  replace (normalize_upc (CStr "12345678905.0")) with "012345678905"
    by by vm_compute.
  replace (normalize_partner (CStr "012345678905")) with "012345678905"
    by by vm_compute.
  case_decide as Hin; [done|]. set_solver.
Qed.

(** C9, as stated, fails: the auto-mapping script only pads, so it leaves
    [12345678905.0] as it is, while the other scripts extract the digits. *)
Lemma normalize_auto_differs :
  ¬ (∀ c : cell, normalize_auto c = normalize_upc c).
Proof. intros H. specialize (H (CStr "12345678905.0")). by vm_compute in H. Qed.

(** C9, amended: on a cell whose text consists of decimal digits only, the
    auto-mapping script's normalisation and the digit-extracting scripts'
    normalisations (source side and partner side) coincide. *)
Theorem normalize_auto_digits (c : cell) :
  Text.all Text.isdigit (astype_str c) = true ->
  normalize_auto c = normalize_upc c ∧ normalize_auto c = normalize_partner c.
Proof.
  intros Hd. rewrite normalize_upc_run, normalize_partner_run.
  unfold normalize_auto. by rewrite first_digit_run_all.
Qed.

Lemma normalize_auto_digits_witness :
  normalize_auto (CInt 12345678905) = normalize_upc (CInt 12345678905) ∧
  normalize_auto (CInt 12345678905) = normalize_partner (CInt 12345678905).
Proof. apply (normalize_auto_digits (CInt 12345678905)). reflexivity. Defined.

(** ** Size and count parsing *)

Section ParserFacts.
Implicit Types (s t v u w : string) (cs : Re.caps).

Lemma rmatch_plus_digits p s cs s' cs' :
  rmatch (Re.Plus p) s cs s' cs' ->
  cs' = cs ∧
  ∃ w, w ≠ EmptyString ∧ Text.all (Re.cls_mem p) w = true ∧ s = w +:+ s'.
Proof.
  remember (Re.Plus p) as r eqn:Hr. induction 1; try discriminate.
  - injection Hr as ->. split; [done|]. exists (String c EmptyString).
    simpl. by rewrite H.
  - injection Hr as ->. destruct (IHrmatch eq_refl) as (_ & w & ? & Hw & ->).
    split; [done|]. exists (String c w). simpl. by rewrite H, Hw.
Qed.

Lemma digits_rmatch p w s cs :
  w ≠ EmptyString -> Text.all (Re.cls_mem p) w = true ->
  rmatch (Re.Plus p) (w +:+ s) cs s cs.
Proof.
  induction w as [|c w IH]; [done|]. intros _. simpl.
  intros [Hc Hw]%andb_prop. rewrite sapp_cons.
  destruct w as [|c' w].
  - by apply rm_plus_one.
  - apply rm_plus_more; [done|]. by apply IH.
Qed.

Lemma occurs_at_drop (P : string -> Prop) n s :
  occurs_at P n s <->
  n <= String.length s ∧ ∃ t post, Text.drop n s = t +:+ post ∧ P t.
Proof.
  split.
  - intros (pre & t & post & -> & <- & HP). split.
    + rewrite slength_app. lia.
    + exists t, post. by rewrite sdrop_app_length.
  - intros (Hn & t & post & Hd & HP).
    exists (Text.take n s), t, post. rewrite <- Hd, stake_drop.
    by rewrite slength_take.
Qed.

End ParserFacts.

(** Inversion of a match of a compound pattern into matches of its
    parts. *)
Ltac inv_rmatch :=
  repeat match goal with
  | H : rmatch (Re.Seq _ _) _ _ _ _ |- _ => inversion H; subst; clear H
  | H : rmatch (Re.Grp _ _) _ _ _ _ |- _ => inversion H; subst; clear H
  | H : rmatch (Re.Opt _) _ _ _ _ |- _ => inversion H; subst; clear H
  | H : rmatch (Re.Alt _ _) _ _ _ _ |- _ => inversion H; subst; clear H
  | H : rmatch (Re.Cls _) _ _ _ _ |- _ => inversion H; subst; clear H
  | H : rmatch (Re.Str _) _ _ _ _ |- _ =>
      inversion H as [? ? ? ? Hpre| | | | | | | | | |]; subst; clear H;
      apply strip_prefix_Some in Hpre; subst
  | H : rmatch (Re.Plus _) _ _ _ _ |- _ =>
      apply rmatch_plus_digits in H as (-> & ? & ? & ? & ->)
  end.

Section SizeFacts.
Implicit Types (s t v u w : string) (cs : Re.caps).

Lemma rmatch_seq_inv r1 r2 s cs s2 cs2 :
  rmatch (Re.Seq r1 r2) s cs s2 cs2 ->
  ∃ s1 cs1, rmatch r1 s cs s1 cs1 ∧ rmatch r2 s1 cs1 s2 cs2.
Proof. inversion 1; subst. eauto. Qed.

Lemma number_group_inv t cs s' cs' :
  rmatch number_group t cs s' cs' ->
  ∃ v cs0, cs' = (1, v) :: cs0 ∧ is_number v ∧ t = v +:+ s'.
Proof.
  unfold number_group. intros H. inv_rmatch.
  - replace (x0 +:+ "." +:+ x +:+ s') with ((x0 +:+ "." +:+ x) +:+ s')
      by by rewrite !sapp_assoc.
    rewrite taken_app. eexists _, _. split; [done|]. split; [|done].
    right. eexists _, _. by repeat split.
  - rewrite taken_app. eexists _, _. split; [done|].
    split; [by left|done].
Qed.

Lemma digit_group_inv t cs s' cs' :
  rmatch (Re.Grp 1 (Re.Plus Re.Digit)) t cs s' cs' ->
  ∃ v, cs' = (1, v) :: cs ∧ is_digits v ∧ t = v +:+ s'.
Proof.
  intros H. inv_rmatch. rewrite taken_app. eexists. by repeat split.
Qed.

Lemma opt_space_inv t cs s' cs' :
  rmatch opt_space t cs s' cs' ->
  cs' = cs ∧ ∃ sp, is_opt_space sp ∧ t = sp +:+ s'.
Proof.
  unfold opt_space. intros H. inv_rmatch.
  - split; [done|]. exists (String c EmptyString). split; [right; eauto|done].
  - split; [done|]. exists EmptyString. split; [by left|done].
Qed.

Lemma unit_group_inv t cs s' cs' :
  rmatch unit_group t cs s' cs' ->
  ∃ u, cs' = (3, u) :: cs ∧ u ∈ size_units ∧ t = u +:+ s'.
Proof.
  unfold unit_group, size_units. intros H. inv_rmatch.
  all: eexists; rewrite taken_app;
    (split; [reflexivity|split; [set_solver|done]]).
Qed.

(** A match of the size pattern is a size token, with the number in
    group 1 and the unit in group 3. *)
Lemma size_re_token t s' cs' :
  rmatch size_re t [] s' cs' ->
  ∃ v u w, t = w +:+ s' ∧ size_token v u w ∧
           Re.group cs' 1 = Some v ∧ Re.group cs' 3 = Some u.
Proof.
  unfold size_re. intros H.
  apply rmatch_seq_inv in H as (s1 & cs1 & Hn & H).
  apply rmatch_seq_inv in H as (s2 & cs2 & Hs & H).
  apply number_group_inv in Hn as (v & cs0 & -> & Hv & ->).
  apply opt_space_inv in Hs as (-> & sp & Hsp & ->).
  apply unit_group_inv in H as (u & -> & Hu & ->).
  exists v, u, (v +:+ sp +:+ u). split; [by rewrite !sapp_assoc|].
  split; [|done]. split; [done|]. split; [done|]. by exists sp.
Qed.

Lemma rm_grp_text n r w s cs cs' :
  rmatch r (w +:+ s) cs s cs' ->
  rmatch (Re.Grp n r) (w +:+ s) cs s ((n, w) :: cs').
Proof. intros H. apply (rm_grp n) in H. by rewrite taken_app in H. Qed.

Lemma is_number_rmatch v s cs :
  is_number v -> ∃ cs0, rmatch number_group (v +:+ s) cs s ((1, v) :: cs0).
Proof.
  unfold number_group.
  intros [[Hne Hd]|(a & b & [Ha1 Ha2] & [Hb1 Hb2] & ->)].
  - eexists. apply rm_grp_text.
    eapply rm_seq; [by apply digits_rmatch|apply rm_opt_none].
  - eexists. apply rm_grp_text. rewrite !sapp_assoc.
    eapply rm_seq; [by apply digits_rmatch|].
    apply rm_opt_some, rm_grp.
    eapply rm_seq; [apply rm_str; by apply strip_prefix_Some|].
    by apply digits_rmatch.
Qed.

Lemma is_opt_space_rmatch sp s cs :
  is_opt_space sp -> rmatch opt_space (sp +:+ s) cs s cs.
Proof.
  unfold opt_space. intros [->|(c & Hc & ->)].
  - apply rm_opt_none.
  - apply rm_opt_some. by apply rm_cls.
Qed.

Lemma size_unit_rmatch u s cs :
  u ∈ size_units -> rmatch unit_group (u +:+ s) cs s ((3, u) :: cs).
Proof.
  unfold unit_group, size_units. intros Hu.
  apply rm_grp_text.
  repeat (apply elem_of_cons in Hu as [->|Hu]);
    [| | | | | |by apply elem_of_nil in Hu].
  - apply rm_alt_l, rm_str. by apply strip_prefix_Some.
  - do 1 apply rm_alt_r. apply rm_alt_l, rm_str. by apply strip_prefix_Some.
  - do 2 apply rm_alt_r. apply rm_alt_l, rm_str. by apply strip_prefix_Some.
  - do 3 apply rm_alt_r. apply rm_alt_l, rm_str. by apply strip_prefix_Some.
  - do 4 apply rm_alt_r. apply rm_alt_l, rm_str. by apply strip_prefix_Some.
  - do 5 apply rm_alt_r. apply rm_str. by apply strip_prefix_Some.
Qed.

(** Every size token is a match of the size pattern. *)
Lemma size_token_rmatch v u w s :
  size_token v u w -> ∃ cs', rmatch size_re (w +:+ s) [] s cs'.
Proof.
  intros (Hv & Hu & sp & Hsp & ->). unfold size_re.
  destruct (is_number_rmatch v (sp +:+ u +:+ s) [] Hv) as [cs0 Hn].
  eexists. rewrite !sapp_assoc. eapply rm_seq; [apply Hn|].
  eapply rm_seq; [by apply is_opt_space_rmatch|].
  by apply size_unit_rmatch.
Qed.

Lemma count_re_token t s' cs' :
  rmatch count_re t [] s' cs' ->
  ∃ v w, t = w +:+ s' ∧ count_token v w ∧ Re.group cs' 1 = Some v.
Proof.
  unfold count_re. intros H.
  apply rmatch_seq_inv in H as (s1 & cs1 & Hn & H).
  apply rmatch_seq_inv in H as (s2 & cs2 & Hs & H).
  apply digit_group_inv in Hn as (v & -> & Hv & ->).
  apply opt_space_inv in Hs as (-> & sp & Hsp & ->).
  inv_rmatch. exists v, (v +:+ sp +:+ "ct").
  split; [by rewrite !sapp_assoc|]. split; [|done].
  split; [done|]. by exists sp.
Qed.

Lemma count_token_rmatch v w s :
  count_token v w -> ∃ cs', rmatch count_re (w +:+ s) [] s cs'.
Proof.
  intros ([Hne Hd] & sp & Hsp & ->). unfold count_re.
  eexists. rewrite !sapp_assoc.
  eapply rm_seq; [by apply (rm_grp_text 1), digits_rmatch|].
  eapply rm_seq; [by apply is_opt_space_rmatch|].
  apply rm_str. by apply strip_prefix_Some.
Qed.
End SizeFacts.

Section SearchFacts.
Implicit Types (d v u : string).

Lemma search_size_Some d m :
  Re.search size_re d = Some m ->
  ∃ v u n,
    Re.group (Re.m_groups m) 1 = Some v ∧
    Re.group (Re.m_groups m) 3 = Some u ∧
    occurs_at (size_token v u) n d ∧
    ∀ j v' u', j < n -> ¬ occurs_at (size_token v' u') j d.
Proof.
  intros (n & Hn & _ & Hr & Hmin)%search_from_Some.
  apply size_re_token in Hr as (v & u & w & Hd & Htok & Hg1 & Hg3).
  exists v, u, n. repeat split; [done|done|..].
  - apply occurs_at_drop. split; [done|]. by exists w, (Re.m_rest m).
  - intros j v' u' Hj (_ & t & post & Hd' & Htok')%occurs_at_drop.
    destruct (size_token_rmatch _ _ _ post Htok') as [cs' Hr].
    rewrite <- Hd' in Hr. by eapply Hmin.
Qed.

Lemma search_size_None d :
  Re.search size_re d = None ->
  ∀ j v' u', ¬ occurs_at (size_token v' u') j d.
Proof.
  intros Hs j v' u' (_ & t & post & Hd' & Htok')%occurs_at_drop.
  destruct (size_token_rmatch _ _ _ post Htok') as [cs' Hr].
  rewrite <- Hd' in Hr. by eapply search_from_None.
Qed.

Lemma search_count_Some d m :
  Re.search count_re d = Some m ->
  ∃ v n,
    Re.group (Re.m_groups m) 1 = Some v ∧
    occurs_at (count_token v) n d ∧
    ∀ j v', j < n -> ¬ occurs_at (count_token v') j d.
Proof.
  intros (n & Hn & _ & Hr & Hmin)%search_from_Some.
  apply count_re_token in Hr as (v & w & Hd & Htok & Hg1).
  exists v, n. repeat split; [done|..].
  - apply occurs_at_drop. split; [done|]. by exists w, (Re.m_rest m).
  - intros j v' Hj (_ & t & post & Hd' & Htok')%occurs_at_drop.
    destruct (count_token_rmatch _ _ post Htok') as [cs' Hr].
    rewrite <- Hd' in Hr. by eapply Hmin.
Qed.

Lemma search_count_None d :
  Re.search count_re d = None ->
  ∀ j v', ¬ occurs_at (count_token v') j d.
Proof.
  intros Hs j v' (_ & t & post & Hd' & Htok')%occurs_at_drop.
  destruct (count_token_rmatch _ _ post Htok') as [cs' Hr].
  rewrite <- Hd' in Hr. by eapply search_from_None.
Qed.

(** The [.upper()] and the [if size_measure:] block on the six units. *)
Lemma canon_measure_unit u :
  u ∈ size_units ->
  (if bool_decide (Text.upper u = EmptyString) then Some (Text.upper u)
   else Some (canon_measure (Text.upper u))) = Some (canonical_unit u).
Proof.
  unfold size_units. intros Hu.
  repeat (apply elem_of_cons in Hu as [->|Hu]);
    [by vm_compute..|by apply elem_of_nil in Hu].
Qed.
End SearchFacts.

(** C8: the parser lower-cases the description; the size is the FIRST
    (leftmost) occurrence of a number, optionally decimal, followed by an
    optional white-space character and one of the units oz, fl oz, l, ml,
    gallon, gal, with the unit canonicalised (fl oz/oz to OZ, gal/gallon
    to GALLON, l to L, ml to ML); the count is the first occurrence of a
    whole number, an optional white-space character and [ct], with unit
    [CT]; the fields are absent exactly when the text has no such
    occurrence; and ["Water Bottles 24 ct 16.9 oz"] gives 16.9 / OZ /
    24 / CT. *)
Theorem extract_size_components_spec (desc : string) :
  let r := extract_size_components desc in
  let d := Text.lower desc in
  match sizeValue r, sizeMeasure r with
  | Some v, Some m =>
      ∃ u n, occurs_at (size_token v u) n d ∧
             (∀ j v' u', j < n -> ¬ occurs_at (size_token v' u') j d) ∧
             m = canonical_unit u
  | None, None => ∀ j v' u', ¬ occurs_at (size_token v' u') j d
  | _, _ => False
  end ∧
  match itemCountValue r, itemCountMeasure r with
  | Some v, Some m =>
      ∃ n, occurs_at (count_token v) n d ∧
           (∀ j v', j < n -> ¬ occurs_at (count_token v') j d) ∧
           m = "CT"
  | None, None => ∀ j v', ¬ occurs_at (count_token v') j d
  | _, _ => False
  end ∧
  extract_size_components "Water Bottles 24 ct 16.9 oz" =
    {| sizeValue := Some "16.9"; sizeMeasure := Some "OZ";
       itemCountValue := Some "24"; itemCountMeasure := Some "CT" |}.
Proof.
  intros r d. split; [|split; [|by vm_compute]].
  - unfold r, extract_size_components. fold d. cbn [sizeValue sizeMeasure].
    destruct (Re.search size_re d) as [m|] eqn:Hs; simpl.
    + destruct (search_size_Some d m Hs)
        as (v & u & n & -> & -> & Hocc & Hmin).
      simpl. pose proof Hocc as (_ & _ & _ & _ & _ & _ & Hu & _).
      pose proof (canon_measure_unit u Hu) as Hc.
      destruct (bool_decide (Text.upper u = EmptyString)); injection Hc as ->;
        by exists u, n.
    + by apply search_size_None.
  - unfold r, extract_size_components. fold d.
    cbn [itemCountValue itemCountMeasure].
    destruct (Re.search count_re d) as [m|] eqn:Hs; simpl.
    + destruct (search_count_Some d m Hs) as (v & n & -> & Hocc & Hmin).
      by exists n.
    + by apply search_count_None.
Qed.

(** C10: the patterns have no word boundary after the unit, so a unit
    that is the beginning of a longer word still matches: ["2 lb"] is read
    as size 2 L, and ["6 ctn"] as count 6 CT. *)
Theorem extract_size_components_unit_prefix :
  (let r := extract_size_components "2 lb" in
   sizeValue r = Some "2" ∧ sizeMeasure r = Some "L") ∧
  (let r := extract_size_components "6 ctn" in
   itemCountValue r = Some "6" ∧ itemCountMeasure r = Some "CT").
Proof. by vm_compute. Qed.

(** ** Category levels *)

Section CategoryFacts.
Implicit Types (cells : list cell) (k i : nat).

Lemma cat_width_ge (cat_split : list (option (list string))) i o :
  cat_split !! i = Some o -> from_option length 0 o <= cat_width cat_split.
Proof.
  unfold cat_width. revert i.
  induction cat_split as [|o' l IH]; intros [|i]; try done;
    rewrite fmap_cons; cbn [foldr lookup list_lookup].
  - intros [= ->]. apply Nat.le_max_l.
  - intros Hi. specialize (IH i Hi).
    etrans; [apply IH|apply Nat.le_max_r].
Qed.

(** Row by row, a level is the trimmed part at its position, or ["N/A"]
    where the split has no such position. *)
Lemma cat_level_lookup cells k i c :
  cells !! i = Some c ->
  cat_level (str_split_cell <$> cells) k !! i =
  Some (fillna "N/A" (Text.strip <$> (str_split_cell c ≫= (.!! k)))).
Proof.
  intros Hi. unfold cat_level. case_decide as Hk.
  - by rewrite !list_lookup_fmap, Hi.
  - rewrite length_fmap, lookup_replicate_2
      by by eapply lookup_lt_Some.
    assert ((str_split_cell <$> cells) !! i = Some (str_split_cell c)) as Hs
      by by rewrite list_lookup_fmap, Hi.
    apply cat_width_ge in Hs.
    destruct (str_split_cell c) as [parts|]; [|done].
    cbn [from_option] in Hs. cbn [mbind option_bind].
    rewrite lookup_ge_None_2 by lia. done.
Qed.

(** On a text cell the three levels are as the splitter is described. *)
Lemma cat_level_text cells k i s :
  cells !! i = Some (CStr s) ->
  cat_level (str_split_cell <$> cells) k !! i =
  Some (match Text.split ">" s !! k with
        | Some part => Text.strip part
        | None => "N/A"
        end).
Proof.
  intros Hi. rewrite (cat_level_lookup _ _ _ _ Hi). simpl.
  by destruct (Text.split ">" s !! k).
Qed.
End CategoryFacts.

(** C6, evaluated where it fails: for a new record whose [product_type]
    is missing, the script fills the cell with the empty text before the
    split, so level 0 exists and is empty: the department is the empty
    text, not ["N/A"], while category and segment are ["N/A"].  On text
    cells the levels are as described: ["Beverages > Soda > Cola"] and
    ["Snacks"] give the stated triples. *)
Theorem cat_level_missing_product_type :
  let cat_split :=
    str_split_cell <$>
      [CNull; CStr "Beverages > Soda > Cola"; CStr "Snacks"] in
  cat_level cat_split 0 = [EmptyString; "Beverages"; "Snacks"] ∧
  cat_level cat_split 1 = ["N/A"; "Soda"; "N/A"] ∧
  cat_level cat_split 2 = ["N/A"; "Cola"; "N/A"] ∧
  cat_level (str_split_cell <$> [CNull]) 0 = [EmptyString] ∧
  (fun r => (get r "barcode", get r "ch1Department", get r "ch2Category"))
    <$> drop 2 (rows ex_out) =
  [(CStr "000000000000", CStr "Beverages", CStr "Soda");
   (CStr "000000000077", CStr EmptyString, CStr "N/A")].
Proof. by vm_compute. Qed.

(** ** Data frames *)

Section FrameFacts.
Implicit Types (df : DataFrame) (col c : string) (vs : list cell)
               (r : gmap string cell).

Lemma bind_Ok {A B} (m : result A) (f : A -> result B) b :
  m ≫= f = Ok b -> ∃ a, m = Ok a ∧ f a = Ok b.
Proof. destruct m as [a|e]; [|done]. intros H. by exists a. Qed.

Lemma column_Ok df col vs :
  column df col = Ok vs ->
  col ∈ columns df ∧ vs = (fun r => get r col) <$> rows df.
Proof. unfold column. case_decide; [|done]. by intros [= <-]. Qed.

Lemma length_column df col vs :
  column df col = Ok vs -> length vs = length (rows df).
Proof. intros [_ ->]%column_Ok. by rewrite length_fmap. Qed.

Lemma length_rows_set_column df col vs :
  length vs = length (rows df) ->
  length (rows (set_column df col vs)) = length (rows df).
Proof. intros Hl. simpl. rewrite length_zip_with. lia. Qed.

Lemma get_insert r col c (v : cell) :
  get (<[col := v]> r) c = if decide (c = col) then v else get r c.
Proof.
  unfold get. case_decide as Hc.
  - subst. by rewrite lookup_insert_eq.
  - by rewrite lookup_insert_ne.
Qed.

Lemma get_zip_insert (l : list (gmap string cell)) vs col c :
  length vs = length l ->
  (fun r => get r c) <$> zip_with (fun r v => <[col := v]> r) l vs =
  if decide (c = col) then vs else (fun r => get r c) <$> l.
Proof.
  revert vs. induction l as [|r l IH]; intros [|v vs]; try done.
  - by case_decide.
  - intros [= Hl]. specialize (IH vs Hl). cbn [zip_with].
    rewrite !fmap_cons, get_insert, IH. by case_decide.
Qed.

(** A frame read by column after [df[col] = vs]. *)
Lemma column_set_column df col vs c :
  length vs = length (rows df) ->
  (fun r => get r c) <$> rows (set_column df col vs) =
  if decide (c = col) then vs else (fun r => get r c) <$> rows df.
Proof. apply get_zip_insert. Qed.

Lemma rows_set_column_fmap {X} (l : list X) df col
    (h : X -> gmap string cell) (g : X -> cell) :
  rows df = h <$> l ->
  rows (set_column df col (g <$> l)) = (fun x => <[col := g x]> (h x)) <$> l.
Proof.
  intros Hr. cbn [rows set_column]. rewrite Hr.
  by rewrite zip_with_fmap_l, zip_with_fmap_r, zip_with_diag.
Qed.

Lemma filter_fmap {X Y} (f : X -> Y) (P : Y -> Prop)
    `{!∀ y, Decision (P y)} (l : list X) :
  filter P (f <$> l) = f <$> filter (fun x => P (f x)) l.
Proof.
  induction l as [|x l IH]; [done|]. rewrite fmap_cons, !filter_cons.
  case_decide; [rewrite fmap_cons|]; by rewrite IH.
Qed.

Lemma length_mapM_Ok {X Y} (f : X -> result Y) l l' :
  mapM f l = Ok l' -> length l' = length l.
Proof.
  revert l'. induction l as [|x l IH]; intros l'; simpl.
  - by intros [= <-].
  - intros (y & _ & (k & Hk & [= <-])%bind_Ok)%bind_Ok.
    simpl. by rewrite (IH k).
Qed.

Lemma status_str_New st : CStr (status_str st) = CStr "New" <-> st = New.
Proof. by destruct st. Qed.

Lemma label_Existing (l : list string) x :
  label (existing_barcodes l) x = Existing <-> x ∈ l.
Proof.
  unfold label, existing_barcodes.
  case_decide as Hx; rewrite elem_of_list_to_set in Hx; naive_solver.
Qed.

Lemma label_New (l : list string) x :
  label (existing_barcodes l) x = New <-> x ∉ l.
Proof.
  unfold label, existing_barcodes.
  case_decide as Hx; rewrite elem_of_list_to_set in Hx; naive_solver.
Qed.

Lemma clean_upcs_Ok ro upc_df upc1 codes :
  clean_upcs ro upc_df = Ok (upc1, codes) ->
  upc_col ro ∈ columns upc_df ∧
  codes = upc_code ro <$> rows upc_df ∧
  rows upc1 =
    (fun r => <[upc_col ro := CStr (upc_code ro r)]> r) <$> rows upc_df.
Proof.
  unfold clean_upcs. intros (raw & [Hin ->]%column_Ok & [= <- <-])%bind_Ok.
  split; [done|]. rewrite <- !list_fmap_compose. split; [done|].
  rewrite (rows_set_column_fmap (rows upc_df) upc_df _ id); [done|].
  by rewrite list_fmap_id.
Qed.

Lemma clean_partner_Ok partner_df p1 pcodes :
  clean_partner partner_df = Ok (p1, pcodes) ->
  "barcode" ∈ columns partner_df ∧
  pcodes = catalog_codes partner_df ∧
  columns p1 = columns partner_df ∧
  rows p1 = cleaned <$> rows partner_df.
Proof.
  unfold clean_partner.
  intros (raw & [Hin ->]%column_Ok & [= <- <-])%bind_Ok.
  split; [done|]. rewrite <- !list_fmap_compose. split; [done|]. split.
  - simpl. by case_decide.
  - rewrite (rows_set_column_fmap (rows partner_df) partner_df _ id);
      [done|]. by rewrite list_fmap_id.
Qed.

(** What the first half of the merge leaves: the catalogue with its
    barcodes normalised, and the source rows labelled [New], in their
    order. *)
Lemma reconcile_Ok ro upc_df partner_df p1 new :
  reconcile ro upc_df partner_df = Ok (p1, new) ->
  upc_col ro ∈ columns upc_df ∧
  "barcode" ∈ columns partner_df ∧
  columns p1 = columns partner_df ∧
  rows p1 = cleaned <$> rows partner_df ∧
  rows new =
    labelled ro partner_df <$>
      filter (fun r => row_status ro partner_df r = New) (rows upc_df).
Proof.
  unfold reconcile.
  intros ([upc1 codes] & (Hu & -> & Hr1)%clean_upcs_Ok & H)%bind_Ok.
  apply bind_Ok in H
    as ([p1' pcodes] & (Hb & -> & Hc & Hr)%clean_partner_Ok & [= <- <-]).
  repeat split; try done.
  unfold select_new. cbn [rows]. rewrite <- list_fmap_compose.
  rewrite (rows_set_column_fmap (rows upc_df) upc1 _ _ _ Hr1).
  rewrite filter_fmap. f_equal.
  apply list_filter_iff. intros r. rewrite get_insert.
  rewrite decide_True by done. apply status_str_New.
Qed.

Lemma rows_concat_sheets_from acc sheets :
  rows (foldl concat acc sheets) = rows acc ++ mjoin (rows <$> sheets).
Proof.
  revert acc. induction sheets as [|sh sheets IH]; intros acc; simpl.
  - by rewrite app_nil_r.
  - rewrite IH. simpl. by rewrite <- app_assoc.
Qed.
End FrameFacts.

(** C1: a source record is labelled [Existing] if and only if its
    normalised barcode is equal, as a string, to the normalised barcode of
    some catalogue row, and [New] otherwise; the selection passed
    downstream consists of exactly the records labelled [New], in the
    order of the source (the rows of all sheets, sheet after sheet), each
    record judged on its own barcode, duplicates kept. *)
Theorem reconcile_spec (ro : roles) (upc_df partner_df p1 new : DataFrame) :
  reconcile ro upc_df partner_df = Ok (p1, new) ->
  (∀ r, row_status ro partner_df r = Existing ↔
        ∃ pr, pr ∈ rows partner_df ∧
              upc_code ro r = normalize_partner (get pr "barcode")) ∧
  (∀ r, row_status ro partner_df r = New ↔
        ¬ ∃ pr, pr ∈ rows partner_df ∧
                upc_code ro r = normalize_partner (get pr "barcode")) ∧
  rows new =
    labelled ro partner_df <$>
      filter (fun r => row_status ro partner_df r = New) (rows upc_df) ∧
  (∀ sheets, upc_df = concat_sheets sheets ->
             rows upc_df = mjoin (rows <$> sheets)).
Proof.
  intros (_ & _ & _ & _ & Hnew)%reconcile_Ok.
  assert (∀ r, upc_code ro r ∈ catalog_codes partner_df ↔
               ∃ pr, pr ∈ rows partner_df ∧
                     upc_code ro r = normalize_partner (get pr "barcode"))
    as Hin.
  { intros r. unfold catalog_codes. rewrite list_elem_of_fmap.
    split; intros (pr & ? & ?); by exists pr. }
  repeat split.
  - intros Hs. by apply Hin, label_Existing.
  - intros Hs. by apply label_Existing, Hin.
  - intros Hs Hex. by apply label_New in Hs; apply Hs, Hin.
  - intros Hs. apply label_New. intros Hc. by apply Hs, Hin.
  - done.
  - intros sheets ->. unfold concat_sheets.
    by rewrite rows_concat_sheets_from.
Qed.

(** ** The new rows and their alignment with the catalogue *)

Lemma length_cat_level cat_split k :
  length (cat_level cat_split k) = length cat_split.
Proof.
  unfold cat_level. case_decide.
  - by rewrite length_fmap.
  - by rewrite length_replicate.
Qed.

Ltac solve_len :=
  repeat (rewrite ?length_fmap, ?length_cat_level, ?length_replicate;
          try (rewrite length_rows_set_column; [|solve_len]));
  (congruence || done).

Section MergeFacts.
Implicit Types (df : DataFrame) (col c : string) (vs : list cell)
               (r : gmap string cell).

Lemma same_but_refl cols df : same_but cols df df.
Proof. by split. Qed.

Lemma same_but_set_column cols df df' col vs :
  same_but cols df df' -> col ∈ cols -> length vs = length (rows df') ->
  same_but cols df (set_column df' col vs).
Proof.
  intros [Hl Hc] Hin Hvs. split.
  - by rewrite length_rows_set_column.
  - intros c Hn. rewrite column_set_column by done.
    rewrite decide_False by set_solver. by apply Hc.
Qed.

Lemma add_parsed_Ok ro df df' :
  add_parsed ro df = Ok df' -> same_but derived_columns df df'.
Proof.
  unfold add_parsed.
  intros (descs & Hd%length_column & H)%bind_Ok.
  apply bind_Ok in H as (texts & Ht%length_mapM_Ok & H).
  case_decide; [done|]. injection H as <-.
  repeat (apply same_but_set_column; [|set_solver|solve_len]).
  apply same_but_refl.
Qed.

Lemma add_categories_Ok ro df df' :
  add_categories ro df = Ok df' -> same_but derived_columns df df'.
Proof.
  unfold add_categories. destruct (product_type_col ro) as [pt|].
  - intros (cells & Hc%length_column & [= <-])%bind_Ok.
    repeat (apply same_but_set_column; [|set_solver|solve_len]).
    apply same_but_refl.
  - intros [= <-]. unfold set_scalar.
    repeat (apply same_but_set_column; [|set_solver|solve_len]).
    apply same_but_refl.
Qed.
End MergeFacts.

Section BuildFacts.
Implicit Types (df : DataFrame) (col c : string) (vs : list cell)
               (r : gmap string cell) (dict : list (string * list cell)).

Lemma foldl_step {A B} (f : A -> B -> A) a x l :
  foldl f a (x :: l) = foldl f (f a x) l.
Proof. done. Qed.

Lemma closed_set_column df col vs : closed df -> closed (set_column df col vs).
Proof.
  intros Hc r c Hr Hn. cbn [rows set_column] in Hr.
  apply elem_of_zip_with in Hr as (r0 & v & -> & Hr0 & _).
  cbn [columns set_column] in Hn.
  assert (c ≠ col ∧ c ∉ columns df) as [Hne Hnc].
  { case_decide; set_solver. }
  rewrite lookup_insert_ne by done. by apply Hc.
Qed.

Lemma frame_fold_length df dict :
  Forall (fun kv => length kv.2 = length (rows df)) dict ->
  length (rows (foldl (fun df kv => set_column df kv.1 kv.2) df dict)) =
  length (rows df).
Proof.
  revert df. induction dict as [|[k vs] dict IH]; intros df; [done|].
  intros [Hk Hd]%Forall_cons. cbn [foldl fst snd] in *.
  rewrite IH; rewrite length_rows_set_column; try done.
Qed.

Lemma frame_fold_columns df dict :
  NoDup (columns df ++ dict.*1) ->
  columns (foldl (fun df kv => set_column df kv.1 kv.2) df dict) =
  columns df ++ dict.*1.
Proof.
  revert df. induction dict as [|[k vs] dict IH]; intros df Hnd.
  - simpl. by rewrite app_nil_r.
  - cbn [foldl fst snd fmap list_fmap] in *.
    assert (k ∉ columns df) as Hk.
    { apply NoDup_app in Hnd as (_ & Hd & _). intros Hin.
      apply (Hd k Hin). set_solver. }
    assert (columns (set_column df k vs) = columns df ++ [k]) as Hc.
    { cbn [columns set_column]. by rewrite decide_False. }
    rewrite IH; rewrite Hc, <- app_assoc; done.
Qed.

Lemma frame_fold_column df dict c :
  Forall (fun kv => length kv.2 = length (rows df)) dict ->
  c ∉ dict.*1 ->
  (fun r => get r c)
    <$> rows (foldl (fun df kv => set_column df kv.1 kv.2) df dict) =
  (fun r => get r c) <$> rows df.
Proof.
  revert df. induction dict as [|[k vs] dict IH]; intros df; [done|].
  intros [Hk Hd]%Forall_cons Hc. cbn [foldl fst snd] in *.
  rewrite fmap_cons in Hc. cbn [fst] in Hc.
  rewrite IH.
  - rewrite column_set_column by done.
    rewrite decide_False; [done|]. intros ->. apply Hc. by left.
  - by rewrite length_rows_set_column.
  - intros Hin. apply Hc. by right.
Qed.

Lemma frame_fold_closed df dict :
  closed df ->
  closed (foldl (fun df kv => set_column df kv.1 kv.2) df dict).
Proof.
  revert df. induction dict as [|[k vs] dict IH]; intros df Hc; [done|].
  apply IH. by apply closed_set_column.
Qed.

Lemma length_brand_values ro df vs :
  brand_values ro df = Ok vs -> length vs = length (rows df).
Proof.
  unfold brand_values. destruct (brand_col ro) as [b|].
  - intros (cells & Hc%length_column & [= <-])%bind_Ok.
    by rewrite length_fmap.
  - intros [= <-]. by rewrite length_replicate.
Qed.

(** The frame built for the new barcodes: the thirteen fields, one row
    per selected row, the barcode taken from the barcode column. *)
Lemma build_new_rows_Ok ro df nr :
  build_new_rows ro df = Ok nr ->
  columns nr = new_row_fields ∧
  closed nr ∧
  length (rows nr) = length (rows df) ∧
  (fun r => get r "barcode") <$> rows nr =
  (fun r => get r (upc_col ro)) <$> rows df.
Proof.
  unfold build_new_rows. intros H.
  apply bind_Ok in H as (barcode & Hb & H).
  apply bind_Ok in H as (brand & Hbr%length_brand_values & H).
  do 8 (apply bind_Ok in H as (? & ?%length_column & H)).
  injection H as <-. pose proof (length_column _ _ _ Hb) as Hlb.
  apply column_Ok in Hb as [_ Hb].
  assert (length (rows {| columns := [];
                          rows := replicate (length (rows df)) ∅ |}) =
          length (rows df)) as Hl0 by apply length_replicate.
  unfold frame_of. split; [|split; [|split]].
  - rewrite frame_fold_columns; [done|]. cbn. by compute_done.
  - apply frame_fold_closed. intros r c Hr _.
    apply elem_of_replicate in Hr as [-> _]. apply lookup_empty.
  - rewrite frame_fold_length; [done|]. rewrite Hl0.
    repeat (apply Forall_cons; split; [cbn; solve_len|]).
    apply Forall_nil_2.
  - rewrite foldl_step, frame_fold_column; cbn [fst snd].
    + rewrite column_set_column by (by rewrite Hl0).
      by rewrite decide_True.
    + rewrite length_rows_set_column by (by rewrite Hl0). rewrite Hl0.
      repeat (apply Forall_cons; split; [cbn; solve_len|]).
      apply Forall_nil_2.
    + cbn. by compute_done.
Qed.
End BuildFacts.

Section AlignFacts.
Implicit Types (df nr p : DataFrame) (col c : string)
               (r : gmap string cell).

Lemma new_rows_of_Ok ro new nr :
  new_rows_of ro new = Ok nr ->
  columns nr = new_row_fields ∧
  closed nr ∧
  length (rows nr) = length (rows new) ∧
  (upc_col ro ∉ derived_columns ->
   (fun r => get r "barcode") <$> rows nr =
   (fun r => get r (upc_col ro)) <$> rows new).
Proof.
  unfold new_rows_of.
  intros (df1 & [Hl1 Hc1]%add_parsed_Ok & H)%bind_Ok.
  apply bind_Ok in H as (df2 & [Hl2 Hc2]%add_categories_Ok & H).
  apply build_new_rows_Ok in H as (Hcols & Hcl & Hl & Hb).
  split; [done|]. split; [done|]. split; [congruence|].
  intros Hu. by rewrite Hb, Hc2, Hc1.
Qed.

Lemma get_closed df r c :
  closed df -> r ∈ rows df -> c ∉ columns df -> get r c = CNull.
Proof. intros Hcl Hr Hc. unfold get. by rewrite (Hcl r c). Qed.

(** The loop that adds the catalogue's columns a frame lacks changes no
    cell: the added cells are missing, as they were. *)
Lemma add_missing_columns cols df :
  closed df ->
  closed (add_missing df cols) ∧
  length (rows (add_missing df cols)) = length (rows df) ∧
  ∀ c, (fun r => get r c) <$> rows (add_missing df cols) =
       (fun r => get r c) <$> rows df.
Proof.
  revert df. induction cols as [|col cols IH]; intros df Hcl;
    [by repeat split|].
  unfold add_missing. cbn [foldl]. fold (add_missing df cols).
  case_decide as Hin; [by apply IH|].
  fold (add_missing (set_scalar df col CNull) cols).
  assert (length (replicate (length (rows df)) CNull) = length (rows df))
    as Hlen by apply length_replicate.
  destruct (IH (set_scalar df col CNull)) as (Hcl' & Hl' & Hg').
  { by apply closed_set_column. }
  split; [done|]. split.
  - rewrite Hl'. by apply length_rows_set_column.
  - intros c. rewrite Hg'. unfold set_scalar.
    rewrite column_set_column by done. case_decide as Hc; [|done].
    subst c. apply list_eq. intros i.
    rewrite list_lookup_fmap.
    destruct (rows df !! i) as [r|] eqn:Hr; simpl.
    + rewrite lookup_replicate_2 by by eapply lookup_lt_Some.
      assert (r ∈ rows df) as Hin' by by eapply list_elem_of_lookup_2.
      by rewrite (get_closed df r col).
    + apply lookup_replicate_None. by apply lookup_ge_None.
Qed.

Lemma project_row_lookup cols r c :
  project_row cols r !! c =
  if decide (c ∈ cols) then Some (get r c) else None.
Proof.
  unfold project_row. induction cols as [|c0 cols IH].
  - by rewrite decide_False by apply not_elem_of_nil.
  - rewrite fmap_cons, list_to_map_cons.
    destruct (decide (c = c0)) as [->|Hne].
    + rewrite lookup_insert_eq. by rewrite decide_True by by left.
    + rewrite lookup_insert_ne, IH by done.
      destruct (decide (c ∈ cols)).
      * by rewrite decide_True by by right.
      * rewrite decide_False; [done|].
        by intros [->|?]%elem_of_cons.
Qed.

Lemma filter_none {X} (P : X -> Prop) `{!∀ x, Decision (P x)}
    (l : list X) :
  (∀ x, x ∈ l -> ¬ P x) -> filter P l = [].
Proof.
  induction l as [|x l IH]; [done|]. intros Hall.
  rewrite filter_cons, decide_False by (apply Hall; by left).
  apply IH. intros y Hy. apply Hall. by right.
Qed.

(** The selection succeeds when the frame has every listed column, and
    stops with a [KeyError] when it lacks one. *)
Lemma project_Ok df cols :
  (∀ c, c ∈ cols -> c ∈ columns df) ->
  project df cols =
  Ok {| columns := cols; rows := project_row cols <$> rows df |}.
Proof.
  intros H. unfold project. rewrite filter_none; [done|].
  intros c Hc Hn. by apply Hn, H.
Qed.

Lemma project_Raise df cols c :
  c ∈ cols -> c ∉ columns df ->
  ∃ c', c' ∈ cols ∧ (c' ∉ columns df) ∧
        project df cols = Raise (KeyError c').
Proof.
  intros Hc Hn. unfold project.
  destruct (filter (fun c => c ∉ columns df) cols) as [|c' l] eqn:Hf.
  - assert (c ∈ filter (fun c => c ∉ columns df) cols) as Hin
      by by apply list_elem_of_filter.
    rewrite Hf in Hin. by apply elem_of_nil in Hin.
  - assert (c' ∈ filter (fun c => c ∉ columns df) cols) as Hin
      by (rewrite Hf; by left).
    apply list_elem_of_filter in Hin as [Hn' Hc']. by exists c'.
Qed.

(** After the loop the frame has its own columns and every listed one. *)
Lemma columns_add_missing cols df c :
  c ∈ columns (add_missing df cols) <-> c ∈ columns df ∨ c ∈ cols.
Proof.
  revert df. induction cols as [|col cols IH]; intros df.
  - cbn. split; [by left|]. by intros [?|?%elem_of_nil].
  - unfold add_missing. cbn [foldl]. case_decide as Hin.
    + fold (add_missing df cols). rewrite IH, elem_of_cons. split.
      * intros [?|?]; [by left|by right; right].
      * intros [?|[->|?]]; [by left|by left|by right].
    + fold (add_missing (set_scalar df col CNull) cols). rewrite IH.
      cbn [columns set_scalar set_column]. rewrite decide_False by done.
      rewrite elem_of_app, list_elem_of_singleton, elem_of_cons. split.
      * intros [[?| ->]|?]; [by left|by right; left|by right; right].
      * intros [?|[->|?]]; [by left; left|by left; right|by right].
Qed.

(** The alignment never fails.  After it every new row has exactly the
    catalogue's columns, each holding the built row's cell (missing if the
    built row has none). *)
Lemma align_Ok p nr :
  closed nr ->
  ∃ al, align p nr = Ok al ∧
    columns al = columns p ∧
    length (rows al) = length (rows nr) ∧
    ∀ i r, rows nr !! i = Some r ->
      ∃ r', rows al !! i = Some r' ∧
            ∀ c, r' !! c = if decide (c ∈ columns p) then Some (get r c)
                           else None.
Proof.
  intros Hcl. unfold align. eexists. split.
  { apply project_Ok. intros c Hc. apply columns_add_missing. by right. }
  cbn [columns rows].
  destruct (add_missing_columns (columns p) nr Hcl) as (_ & Hl & Hg).
  split; [done|]. split.
  - by rewrite length_fmap.
  - intros i r Hr. rewrite list_lookup_fmap.
    destruct (lookup_lt_is_Some_2
      (rows (add_missing nr (columns p))) i) as [r1 Hr1].
    { rewrite Hl. by eapply lookup_lt_Some. }
    rewrite Hr1. simpl. eexists. split; [done|]. intros c.
    rewrite project_row_lookup.
    assert (get r1 c = get r c) as ->; [|done].
    specialize (Hg c).
    apply (f_equal (.!! i)) in Hg.
    rewrite !list_lookup_fmap, Hr, Hr1 in Hg. by injection Hg.
Qed.

Lemma align_inv p nr al :
  closed nr -> align p nr = Ok al ->
  columns al = columns p ∧
  length (rows al) = length (rows nr) ∧
  ∀ i r, rows nr !! i = Some r ->
    ∃ r', rows al !! i = Some r' ∧
          ∀ c, r' !! c = if decide (c ∈ columns p) then Some (get r c)
                         else None.
Proof.
  intros Hcl Hal. destruct (align_Ok p nr Hcl) as (al' & Hal' & H).
  rewrite Hal in Hal'. by injection Hal' as <-.
Qed.

Lemma filter_not_in_self (l : list string) :
  filter (fun c => c ∉ l) l = [].
Proof.
  assert (∀ l0 : list string, (∀ c, c ∈ l0 -> c ∈ l) ->
                              filter (fun c => c ∉ l) l0 = []) as H.
  { induction l0 as [|c l0 IH]; [done|]. intros Hsub.
    rewrite filter_cons, decide_False.
    - apply IH. intros c' Hc'. apply Hsub. by right.
    - intros Hn. apply Hn, Hsub. by left. }
  by apply H.
Qed.

(** What a successful merge is made of. *)
Lemma merge_Ok ro upc_df partner_df out :
  merge ro upc_df partner_df = Ok out ->
  ∃ p1 new nr al,
    reconcile ro upc_df partner_df = Ok (p1, new) ∧
    new_rows_of ro new = Ok nr ∧
    align p1 nr = Ok al ∧
    out = concat p1 al.
Proof.
  unfold merge. intros ([p1 new] & Hr & H)%bind_Ok.
  apply bind_Ok in H as (nr & Hn & H).
  apply bind_Ok in H as (al & Hal & [= <-]). by exists p1, new, nr, al.
Qed.

(** The merge stops only where the reconciliation or the construction of
    the new rows stops. *)
Lemma merge_total ro upc_df partner_df p1 new nr :
  reconcile ro upc_df partner_df = Ok (p1, new) ->
  new_rows_of ro new = Ok nr ->
  ∃ out, merge ro upc_df partner_df = Ok out.
Proof.
  intros Hr Hn. unfold merge. rewrite Hr. cbn [mbind result_bind].
  rewrite Hn. cbn [mbind result_bind].
  apply new_rows_of_Ok in Hn as (_ & Hcl & _).
  destruct (align_Ok p1 nr Hcl) as (al & -> & _). by eexists.
Qed.

Lemma columns_merge ro upc_df partner_df out :
  merge ro upc_df partner_df = Ok out -> columns out = columns partner_df.
Proof.
  intros (p1 & new & nr & al & Hr & Hn & Hal & ->)%merge_Ok.
  apply reconcile_Ok in Hr as (_ & _ & Hc & _).
  apply new_rows_of_Ok in Hn as (_ & Hcl & _).
  destruct (align_inv p1 nr al Hcl Hal) as (Hca & _).
  cbn [columns concat]. rewrite Hca, filter_not_in_self, app_nil_r. done.
Qed.
End AlignFacts.

(** ** The merged frame *)

Section MergedFacts.
Implicit Types (df nr p : DataFrame) (col c : string)
               (r : gmap string cell).

Lemma lower_not_derived col :
  Text.lower col = col -> col ∉ derived_columns.
Proof.
  unfold derived_columns. intros Hl Hin.
  repeat (apply elem_of_cons in Hin as [->|Hin]); try discriminate Hl.
  by apply elem_of_nil in Hin.
Qed.

Lemma column_align p nr al c :
  closed nr -> align p nr = Ok al -> c ∈ columns p ->
  (fun r => get r c) <$> rows al = (fun r => get r c) <$> rows nr.
Proof.
  intros Hcl Hal Hc. destruct (align_inv p nr al Hcl Hal) as (_ & Hl & Hrows).
  apply list_eq. intros i. rewrite !list_lookup_fmap.
  destruct (rows nr !! i) as [r|] eqn:Hr.
  - destruct (Hrows i r Hr) as (r' & -> & Hr'). simpl. f_equal.
    unfold get at 1. by rewrite Hr', decide_True.
  - apply lookup_ge_None in Hr. rewrite <- Hl in Hr.
    apply lookup_ge_None in Hr. by rewrite Hr.
Qed.

Lemma get_labelled ro partner_df r :
  upc_col ro ∉ derived_columns ->
  get (labelled ro partner_df r) (upc_col ro) = CStr (upc_code ro r).
Proof.
  intros Hu. unfold labelled. rewrite !get_insert.
  rewrite decide_False, decide_True; [done..|].
  intros Heq. apply Hu. rewrite Heq. by left.
Qed.

Lemma ex_merge : merge ex_roles ex_upc ex_partner = Ok ex_out.
Proof. reflexivity. Qed.
End MergedFacts.

Lemma reconcile_spec_witness :
  rows ex_reconciled.2 =
  labelled ex_roles ex_partner <$>
    filter (fun r => row_status ex_roles ex_partner r = New) (rows ex_upc).
Proof.
  apply (reconcile_spec ex_roles ex_upc ex_partner
           ex_reconciled.1 ex_reconciled.2).
  reflexivity.
Defined.

(** C3: whenever the merge produces an output, the output has as many
    rows as the catalogue plus the number of source records labelled
    [New]; the first rows are the catalogue's rows, in their order (with
    the barcode column as the script normalised it), and the rows after
    them are the new rows, one per [New] record, in the order of the
    source: their barcodes are the normalised barcodes of the [New]
    records, one after the other.  (For the last part the barcode column
    is named in lower case, as every column of the source is after the
    script renamed them, so that no added column replaces it.) *)
Theorem merge_row_count (ro : roles) (upc_df partner_df out : DataFrame) :
  merge ro upc_df partner_df = Ok out ->
  let news :=
    filter (fun r => row_status ro partner_df r = New) (rows upc_df) in
  length (rows out) = length (rows partner_df) + length news ∧
  take (length (rows partner_df)) (rows out) = cleaned <$> rows partner_df ∧
  (Text.lower (upc_col ro) = upc_col ro ->
   (fun r => get r "barcode")
     <$> drop (length (rows partner_df)) (rows out) =
   (fun r => CStr (upc_code ro r)) <$> news).
Proof.
  intros (p1 & new & nr & al & Hr & Hn & Hal & ->)%merge_Ok news.
  apply reconcile_Ok in Hr as (_ & Hb & Hc1 & Hp1 & Hnew).
  apply new_rows_of_Ok in Hn as (_ & Hcl & Hl & Hbar).
  destruct (align_inv p1 nr al Hcl Hal) as (_ & Hla & _).
  assert (length (rows p1) = length (rows partner_df)) as Hlp
    by by rewrite Hp1, length_fmap.
  cbn [rows concat]. split; [|split].
  - rewrite length_app, Hla, Hl, Hlp, Hnew, length_fmap. done.
  - by rewrite <- Hlp, take_app_length.
  - intros Hu%lower_not_derived. rewrite <- Hlp, drop_app_length.
    rewrite (column_align p1 nr al) by (done || by rewrite Hc1).
    rewrite (Hbar Hu), Hnew, <- list_fmap_compose.
    apply list_fmap_ext. intros _ r _. by apply get_labelled.
Qed.

Lemma merge_row_count_witness :
  length (rows ex_out) =
    length (rows ex_partner) +
    length (filter (fun r => row_status ex_roles ex_partner r = New)
              (rows ex_upc)) ∧
  (fun r => get r "barcode") <$> drop 2 (rows ex_out) =
    (fun r => CStr (upc_code ex_roles r))
      <$> filter (fun r => row_status ex_roles ex_partner r = New)
            (rows ex_upc).
Proof.
  destruct (merge_row_count ex_roles ex_upc ex_partner ex_out)
    as (Hlen & _ & Hbar); [reflexivity|].
  split; [exact Hlen|]. apply Hbar. reflexivity.
Defined.

(** C4: whenever the merge produces an output, the output's columns are
    the catalogue's columns, in the catalogue's order; each appended row
    holds, for every catalogue column, the cell of the row built for that
    new record, which is missing when the built row has no such field, and
    it holds nothing for a built field that is not a catalogue column.
    The loop over the catalogue's columns is what makes this possible:
    after it the frame of new rows has the built fields and every
    catalogue column, the added ones holding missing values only, so the
    selection of the catalogue's columns, which stops with a [KeyError]
    on a frame that lacks one of them, cannot stop: the merge produces an
    output whenever the reconciliation and the construction of the new
    rows do. *)
Theorem merge_columns (ro : roles) (upc_df partner_df : DataFrame) :
  (∀ out, merge ro upc_df partner_df = Ok out ->
     columns out = columns partner_df ∧
     ∃ p1 new nr,
       reconcile ro upc_df partner_df = Ok (p1, new) ∧
       new_rows_of ro new = Ok nr ∧
       columns nr = new_row_fields ∧
       length (rows out) = length (rows partner_df) + length (rows nr) ∧
       ∀ i r, rows nr !! i = Some r ->
         (∀ c, c ∉ new_row_fields -> get r c = CNull) ∧
         ∃ r', rows out !! (length (rows partner_df) + i) = Some r' ∧
               ∀ c, r' !! c = if decide (c ∈ columns partner_df)
                              then Some (get r c) else None) ∧
  (∀ p1 new nr,
     reconcile ro upc_df partner_df = Ok (p1, new) ->
     new_rows_of ro new = Ok nr ->
     let filled := add_missing nr (columns p1) in
     columns p1 = columns partner_df ∧
     (∀ c, c ∈ columns filled <->
           c ∈ new_row_fields ∨ c ∈ columns partner_df) ∧
     (∀ r c, r ∈ rows filled -> c ∉ new_row_fields -> get r c = CNull) ∧
     (∀ c, c ∈ columns partner_df -> c ∉ new_row_fields ->
           ∃ c', project nr (columns p1) = Raise (KeyError c')) ∧
     ∃ out, merge ro upc_df partner_df = Ok out).
Proof.
  split.
  - intros out Hm. split; [by eapply columns_merge|].
    apply merge_Ok in Hm as (p1 & new & nr & al & Hr & Hn & Hal & ->).
    exists p1, new, nr. split; [done|]. split; [done|].
    apply reconcile_Ok in Hr as (_ & Hb & Hc1 & Hp1 & Hnew).
    apply new_rows_of_Ok in Hn as (Hcols & Hcl & Hl & _).
    destruct (align_inv p1 nr al Hcl Hal) as (_ & Hla & Hrows).
    assert (length (rows p1) = length (rows partner_df)) as Hlp
      by by rewrite Hp1, length_fmap.
    split; [done|]. cbn [rows concat]. split.
    + by rewrite length_app, Hla, Hlp.
    + intros i r Hi. split.
      * intros c Hc. apply (get_closed nr); [done| |by rewrite Hcols].
        by eapply list_elem_of_lookup_2.
      * destruct (Hrows i r Hi) as (r' & Hr' & Hcells). exists r'.
        rewrite <- Hlp, lookup_app_r, Nat.add_comm, Nat.add_sub by lia.
        by rewrite <- Hc1.
  - intros p1 new nr Hr Hn filled.
    destruct (merge_total _ _ _ _ _ _ Hr Hn) as [out Hout].
    apply reconcile_Ok in Hr as (_ & _ & Hc1 & _).
    apply new_rows_of_Ok in Hn as (Hcols & Hcl & _).
    destruct (add_missing_columns (columns p1) nr Hcl) as (_ & Hlf & Hg).
    split; [done|]. split; [|split; [|split]].
    + intros c. unfold filled.
      by rewrite columns_add_missing, Hcols, Hc1.
    + intros r c [i Hi]%list_elem_of_lookup_1 Hc. apply (inj Some).
      rewrite <- (list_lookup_fmap_Some_2 (fun r => get r c) _ _ _ Hi).
      unfold filled. rewrite Hg, list_lookup_fmap.
      destruct (lookup_lt_is_Some_2 (rows nr) i) as [rn Hrn].
      { rewrite <- Hlf. by eapply lookup_lt_Some. }
      rewrite Hrn. simpl. f_equal.
      apply (get_closed nr); [done| |by rewrite Hcols].
      by eapply list_elem_of_lookup_2.
    + intros c Hc Hn. rewrite <- Hc1, <- Hcols in *.
      destruct (project_Raise nr (columns p1) c Hc Hn) as (c' & _ & _ & E).
      by exists c'.
    + by exists out.
Qed.

Lemma merge_columns_witness :
  columns ex_out = columns ex_partner ∧
  (∃ c, project
          (match new_rows_of ex_roles ex_reconciled.2 with
           | Ok nr => nr
           | Raise _ => {| columns := []; rows := [] |}
           end) (columns ex_reconciled.1) = Raise (KeyError c)) ∧
  ∃ out, merge ex_roles ex_upc ex_partner = Ok out.
Proof.
  destruct (merge_columns ex_roles ex_upc ex_partner) as [H1 H2].
  split; [by apply H1|].
  destruct (H2 ex_reconciled.1 ex_reconciled.2
              (match new_rows_of ex_roles ex_reconciled.2 with
               | Ok nr => nr
               | Raise _ => {| columns := []; rows := [] |}
               end) eq_refl eq_refl) as (_ & _ & _ & Hraise & Hout).
  split; [|exact Hout]. apply (Hraise "notes").
  - by compute_done.
  - by compute_done.
Defined.

(** C5, as stated, fails: the script normalises the catalogue's barcode
    column in place before it appends, so a catalogue barcode [12345]
    comes out as ["000000012345"]. *)
Lemma merge_changes_catalog_barcode :
  ¬ (∀ ro upc_df partner_df out,
       merge ro upc_df partner_df = Ok out ->
       ∀ i r c, rows partner_df !! i = Some r ->
                ∃ r', rows out !! i = Some r' ∧ get r' c = get r c).
Proof.
  intros H.
  destruct (H ex_roles ex_upc ex_partner ex_out ex_merge 1 _ "barcode" eq_refl)
    as (r' & Hr' & Hg).
  assert ((fun r => get r "barcode") <$> rows ex_out !! 1 =
          Some (CStr "000000012345")) as E by by vm_compute.
  rewrite Hr' in E. simpl in E. injection E as E. rewrite Hg in E.
  by vm_compute in E.
Qed.

(** C5, amended: whenever the merge produces an output, every catalogue
    row stands in the output at its place with every cell unchanged except
    the barcode, which holds the normalised form of the catalogue's
    barcode. *)
Theorem merge_keeps_catalog (ro : roles) (upc_df partner_df out : DataFrame) :
  merge ro upc_df partner_df = Ok out ->
  ∀ i r, rows partner_df !! i = Some r ->
    ∃ r', rows out !! i = Some r' ∧
          (∀ c, c ≠ "barcode" -> r' !! c = r !! c) ∧
          r' !! "barcode" = Some (CStr (normalize_partner (get r "barcode"))).
Proof.
  intros (p1 & new & nr & al & Hr & Hn & Hal & ->)%merge_Ok i r Hi.
  apply reconcile_Ok in Hr as (_ & _ & _ & Hp1 & _).
  exists (cleaned r). cbn [rows concat]. split; [|split].
  - rewrite lookup_app_l.
    + by rewrite Hp1, list_lookup_fmap, Hi.
    + rewrite Hp1, length_fmap. by eapply lookup_lt_Some.
  - intros c Hc. unfold cleaned. by rewrite lookup_insert_ne.
  - unfold cleaned. by rewrite lookup_insert_eq.
Qed.

Lemma merge_keeps_catalog_witness :
  ∃ r', rows ex_out !! 1 = Some r' ∧
        (∀ c, c ≠ "barcode" ->
              r' !! c = (list_to_map [("barcode", CInt 12345);
                                      ("name", CStr "Tea");
                                      ("notes", CInt 5)]
                         : gmap string cell) !! c) ∧
        r' !! "barcode" = Some (CStr "000000012345").
Proof.
  apply (merge_keeps_catalog ex_roles ex_upc ex_partner ex_out ex_merge 1).
  reflexivity.
Defined.


(** * Further properties of the scripts *)

(** ** The header row *)

Section HeaderFacts.
Implicit Types (df : list (list cell)) (row : list cell) (i j : nat).



End HeaderFacts.



(** ** Column detection by alias *)

Section DetectFacts.
Implicit Types (columns aliases : list string) (col a : string).






End DetectFacts.




(** ** Lower-casing and trimming *)

Section CaseFacts.
Implicit Types (s t : string) (c : ascii).









End CaseFacts.

(** ** The column roles of the header-detecting script *)

Section RolesFacts.
Implicit Types (columns : list string) (ro : roles).



End RolesFacts.





(** ** Normalised barcodes *)

Section CodeFacts.
Implicit Types (s t : string) (c : cell).







End CodeFacts.




(** ** What the parser can and cannot return *)

Section FieldFacts.
Implicit Types (d v u s t : string).








End FieldFacts.




(** ** The parsed numbers are whole numbers of the text *)

Section BoundaryFacts.
Implicit Types (d v u s t pre post : string) (c : ascii).








End BoundaryFacts.



(** ** Category levels, record by record *)

Section LevelFacts.
Implicit Types (s : string) (sep a : ascii).

End LevelFacts.




(** ** The rows of the merged frame *)

Section OutputFacts.
Implicit Types (df nr p out : DataFrame) (col c : string)
               (r : gmap string cell).



End OutputFacts.




(** ** The cells of the appended rows *)

Section RowFacts.
Implicit Types (df nr : DataFrame) (c k : string) (r : gmap string cell)
               (dict : list (string * list cell)).









Lemma built_keys ro r s c :
  c ∈ new_row_fields -> c ≠ "bh2Brand" -> c ∈ (built_fields ro r s).*1.
Proof.
  unfold new_row_fields. intros Hc Hn.
  repeat (apply elem_of_cons in Hc as [->|Hc]);
    [..|by apply elem_of_nil in Hc]; try done; cbn; repeat constructor.
Qed.



End RowFacts.


(** ** The merge of the auto-mapping script *)

Section AutoFacts.
Implicit Types (df nr p : DataFrame) (c k : string)
               (r : gmap string cell).
















End AutoFacts.





